(** * Halin cluster manager: a shallow embedding of [src/App.js]

    The second document of [src/App.js] is the [ClusterManager] class: the
    event log, the per-member result envelope and its aggregation rule, the
    fan-out executor [mapQueryAcrossCluster], the admin operations built on
    it, and the role reconciler [associateUserToRoles].

    JavaScript values are embedded as [jsval]; synchronous code is a state
    transformer that either returns or throws ([sync]); a promise is the
    state transformer that runs when the promise is driven to settlement
    ([promise]).  The order in which concurrently pending promises settle is
    a parameter of the model. *)

From Stdlib Require Import ZArith String Ascii List Bool Lia.
From stdpp Require Import base option list strings pretty gmap.

Local Open Scope string_scope.
Local Open Scope list_scope.

(** ** JavaScript values *)

Module JS.

(** Arrays occur in this module only as arrays of role names. *)
#[warnings="-register-all"]
Inductive jsval : Type :=
| JUndefined
| JNull
| JBool (b : bool)
| JNum (n : Z)
| JStr (s : string)
| JArr (elements : list string)
| JObj (fields : list (string * jsval)).

(** What [new Error(msg)] builds, what a failed property access on
    [undefined] or [null] raises, and what a member's driver rejects with. *)
Inductive jserr : Type :=
| Error (msg : string)
| TypeError (msg : string).

(** ToBoolean, as used by [!v], [a || b] and [c ? x : y]. *)
Definition truthy (v : jsval) : bool :=
  match v with
  | JUndefined | JNull => false
  | JBool b => b
  | JNum n => negb (n =? 0)%Z
  | JStr s => negb (String.eqb s EmptyString)
  | JArr _ | JObj _ => true
  end.

(** [a || b] *)
Definition or_else (a b : jsval) : jsval := if truthy a then a else b.

Fixpoint assoc {V : Type} (k : string) (kvs : list (string * V)) : option V :=
  match kvs with
  | [] => None
  | (k', v) :: rest => if String.eqb k k' then Some v else assoc k rest
  end.

(** [Array.prototype.join] on an array of strings. *)
Definition join (sep : string) (l : list string) : string := String.concat sep l.

(** ToString, as used by template literals. *)
Definition toString (v : jsval) : string :=
  match v with
  | JUndefined => "undefined"
  | JNull => "null"
  | JBool true => "true"
  | JBool false => "false"
  | JNum n => pretty n
  | JStr s => s
  | JArr l => join "," l
  | JObj _ => "[object Object]"
  end.

Definition dquote : string := String "034"%char EmptyString.
Definition quoted (s : string) : string := dquote +:+ s +:+ dquote.

(** [_.isArray] and [_.isObject] of lodash. *)
Definition isArray (v : jsval) : bool :=
  match v with JArr _ => true | _ => false end.
Definition isObject (v : jsval) : bool :=
  match v with JArr _ | JObj _ => true | _ => false end.

Inductive completion (A : Type) : Type :=
| Normal (a : A)
| Throw (e : jserr).
Arguments Normal {A} a.
Arguments Throw {A} e.

(** [v.k] for a name [k] that is no built-in property: a [TypeError] on
    [undefined] and [null], the field of an object, [undefined] otherwise. *)
Definition getProp (v : jsval) (k : string) : completion jsval :=
  match v with
  | JUndefined => Throw (TypeError ("Cannot read property '" +:+ k +:+ "' of undefined"))
  | JNull => Throw (TypeError ("Cannot read property '" +:+ k +:+ "' of null"))
  | JObj fields => Normal (default JUndefined (assoc k fields))
  | _ => Normal JUndefined
  end.

Inductive settled (A : Type) : Type :=
| Resolved (a : A)
| Rejected (e : jserr)
| Pending.
Arguments Resolved {A} a.
Arguments Rejected {A} e.
Arguments Pending {A}.

End JS.
Import JS.

(** ** The ring buffer *)

Module Ring.

(** Modelled from the spec: the ring buffer class of the [ringjs] package,
    which [App.js] imports and whose source is not part of the repository.
    Section 4.1: an append inserts at the tail and, if the size then
    exceeds the capacity, evicts from the head; the snapshot returns the
    contents oldest first. *)
Record t (A : Type) : Type := Make { capacity : nat; items : list A }.
Arguments Make {A} capacity items.
Arguments capacity {A} _.
Arguments items {A} _.

Definition new {A : Type} (size : nat) : t A := Make size [].

Definition push {A : Type} (x : A) (r : t A) : t A :=
  let xs := items r ++ [x] in
  Make (capacity r) (if (capacity r <? length xs)%nat then tail xs else xs).

Definition toArray {A : Type} (r : t A) : list A := items r.

End Ring.

(** ** Cluster members, results, and the state of the world *)

Definition params := list (string * jsval).
Definition row := list (string * string).

(** A cluster member.  [respond] is what the member's driver answers to a
    statement; [replyOrder n] is the order in which [n] requests that are
    pending on this member at the same time are answered. *)
Record Node : Type := {
  getBoltAddress : string;
  respond : string -> params -> jserr + list row;
  replyOrder : nat -> list nat;
}.

Record HalinContext : Type := { members : list Node }.

(** What a caller passes to [addEvent]. *)
Record Event : Type := {
  type : jsval;
  message : jsval;
  payload : jsval;
}.

(** What [addEvent] stores. *)
Record EventLogEntry : Type := {
  e_type : jsval;
  e_message : jsval;
  e_date : string;
  e_payload : jsval;
  e_id : string;
}.

Inductive SentryItem : Type :=
| Report (err : jserr)
| Info (msg : string)
| Fine (msg : string).

Record Request : Type := {
  rq_addr : string;
  rq_query : string;
  rq_params : params;
}.

(** The mutable state: the manager's event log, the number of (date, id)
    stamps drawn so far, what was handed to [sentry], and the statements
    sent to members, in the order they were issued. *)
Record world : Type := {
  eventLog : Ring.t EventLogEntry;
  stamps : nat;
  sentryLog : list SentryItem;
  wire : list Request;
}.

Definition MAX_EVENTS : nat := 200.

(** [constructor(halinCtx)] *)
Definition constructor : world :=
  {| eventLog := Ring.new MAX_EVENTS; stamps := 0; sentryLog := []; wire := [] |}.

(** ** Synchronous code and promises *)

Definition sync (A : Type) : Type := world -> completion A * world.
Definition promise (A : Type) : Type := world -> settled A * world.

Definition ret {A : Type} (a : A) : sync A := fun w => (Normal a, w).
Definition throw {A : Type} (e : jserr) : sync A := fun w => (Throw e, w).
Definition bind {A B : Type} (c : sync A) (k : A -> sync B) : sync B :=
  fun w =>
    match c w with
    | (Normal a, w') => k a w'
    | (Throw e, w') => (Throw e, w')
    end.
Definition lift {A : Type} (c : completion A) : sync A := fun w => (c, w).

Notation "'let*' x ':=' c 'in' k" := (bind c (fun x => k))
  (at level 10, x name, c at level 100, k at level 200).

(** [xs.map(f)] where [f] has effects: left to right, stopping at a throw. *)
Fixpoint mapS {A B : Type} (f : A -> sync B) (xs : list A) : sync (list B) :=
  match xs with
  | [] => ret []
  | x :: rest =>
      let* y := f x in
      let* ys := mapS f rest in
      ret (y :: ys)
  end.

(** [p.then(f)], [f] returning a plain value. *)
Definition then_ {A B : Type} (p : promise A) (f : A -> sync B) : promise B :=
  fun w =>
    match p w with
    | (Resolved a, w1) =>
        match f a w1 with
        | (Normal b, w2) => (Resolved b, w2)
        | (Throw e, w2) => (Rejected e, w2)
        end
    | (Rejected e, w1) => (Rejected e, w1)
    | (Pending, w1) => (Pending, w1)
    end.

(** [p.then(f)], [f] returning a promise, which the result follows. *)
Definition then_p {A B : Type} (p : promise A) (f : A -> sync (promise B)) : promise B :=
  fun w =>
    match p w with
    | (Resolved a, w1) =>
        match f a w1 with
        | (Normal q, w2) => q w2
        | (Throw e, w2) => (Rejected e, w2)
        end
    | (Rejected e, w1) => (Rejected e, w1)
    | (Pending, w1) => (Pending, w1)
    end.

(** [p.catch(h)] *)
Definition catch_ {A : Type} (p : promise A) (h : jserr -> sync A) : promise A :=
  fun w =>
    match p w with
    | (Resolved a, w1) => (Resolved a, w1)
    | (Rejected e, w1) =>
        match h e w1 with
        | (Normal a, w2) => (Resolved a, w2)
        | (Throw e', w2) => (Rejected e', w2)
        end
    | (Pending, w1) => (Pending, w1)
    end.

(** [Promise.all(promises)].  The promises settle in the order [order] (a
    list of positions in [promises]); each fulfilment value is stored at the
    position of its promise.  The first rejection, if any, is the rejection
    of the whole; the remaining promises are not cancelled.  A promise that
    [order] never reaches leaves the whole pending. *)
Fixpoint settle_each {A : Type} (promises : list (promise A)) (order : list nat)
    (values : list (option A)) (rejection : option jserr) (w : world)
    : list (option A) * option jserr * world :=
  match order with
  | [] => (values, rejection, w)
  | i :: rest =>
      match promises !! i with
      | None => settle_each promises rest values rejection w
      | Some p =>
          match p w with
          | (Resolved a, w') =>
              settle_each promises rest (<[i := Some a]> values) rejection w'
          | (Rejected e, w') =>
              settle_each promises rest values (Some (default e rejection)) w'
          | (Pending, w') => settle_each promises rest values rejection w'
          end
      end
  end.

Definition Promise_all {A : Type} (promises : list (promise A)) (order : list nat)
    : promise (list A) :=
  fun w =>
    let '(values, rejection, w') :=
      settle_each promises order (replicate (length promises) None) None w in
    match rejection with
    | Some e => (Rejected e, w')
    | None =>
        match mapM id values with
        | Some vs => (Resolved vs, w')
        | None => (Pending, w')
        end
    end.

(** ** The result envelope and the aggregation rule *)

(** What [clusterOpSuccess] carries as [results]: the rows of a statement,
    the summary string of [applyChanges], or nothing. *)
Inductive Payload : Type :=
| PUndefined
| PRows (rows : list row)
| PText (text : string).

Record ClusterOpResult : Type := {
  success : bool;
  node : Node;
  addr : string;
  results : Payload;
  err : option jserr;
}.

Record AggregatedResult : Type := {
  agg_success : bool;
  agg_results : list ClusterOpResult;
}.

(** [sentry.reportError], [sentry.info], [sentry.fine]: fire and forget. *)
Definition sentry_reportError (e : jserr) : sync unit :=
  fun w => (Normal tt,
            {| eventLog := eventLog w; stamps := stamps w;
               sentryLog := sentryLog w ++ [Report e]; wire := wire w |}).
Definition sentry_info (msg : string) : sync unit :=
  fun w => (Normal tt,
            {| eventLog := eventLog w; stamps := stamps w;
               sentryLog := sentryLog w ++ [Info msg]; wire := wire w |}).
Definition sentry_fine (msg : string) : sync unit :=
  fun w => (Normal tt,
            {| eventLog := eventLog w; stamps := stamps w;
               sentryLog := sentryLog w ++ [Fine msg]; wire := wire w |}).

Definition clusterOpSuccess (node : Node) (results : Payload) : ClusterOpResult :=
  {| success := true; node := node; addr := getBoltAddress node;
     results := results; err := None |}.

(** A rejection reason is always an error object here, so [if (err)] holds. *)
Definition clusterOpFailure (node : Node) (e : jserr) : sync ClusterOpResult :=
  let* _ := sentry_reportError e in
  ret {| success := false; node := node; addr := getBoltAddress node;
         results := PUndefined; err := Some e |}.

Definition packageClusterOpResults (results : list ClusterOpResult) : AggregatedResult :=
  let success' :=
    (length (List.filter (fun r => success r) results) =? length results)%nat in
  {| agg_success := success'; agg_results := results |}.

(** Modelled from the spec: [node.run(query, params)] of the cluster member
    class, which is not among the sources.  Section 6: an asynchronous unit
    of work that yields result rows or fails with a transport or statement
    error.  The statement goes on the wire when [run] is called; the answer
    is known when the returned promise settles. *)
Definition run (node : Node) (query : string) (ps : params) : sync (promise (list row)) :=
  fun w =>
    (Normal (fun w' =>
               (match respond node query ps with
                | inl e => Rejected e
                | inr rows => Resolved rows
                end, w')),
     {| eventLog := eventLog w; stamps := stamps w; sentryLog := sentryLog w;
        wire := wire w ++ [{| rq_addr := getBoltAddress node; rq_query := query;
                              rq_params := ps |}] |}).

(** Modelled from the spec: [neo4j.unpackResults(results, {required})] of the
    driver module, which is not among the sources.  Section 6: projects raw
    rows to plain records and fails if a required field is absent. *)
Definition unpackResults (results : list row) (required : list string) : sync (list row) :=
  if forallb (fun r => forallb (fun k => bool_decide (is_Some (assoc k r))) required) results
  then ret results
  else throw (Error "required field missing").

(** [r.value] on an unpacked record. *)
Definition value (r : row) : string := default EmptyString (assoc "value" r).

(** ** [Set] of role names: insertion order, no duplicates *)

Fixpoint Set_addAll (s : list string) (xs : list string) : list string :=
  match xs with
  | [] => s
  | x :: rest => Set_addAll (if bool_decide (x ∈ s) then s else s ++ [x]) rest
  end.

(** [new Set(xs)]; the list is also what [[...set]] gives back. *)
Definition newSet (xs : list string) : list string := Set_addAll [] xs.
Definition has (s : list string) (x : string) : bool := bool_decide (x ∈ s).

Record RoleChanges : Type := {
  toAdd : list string;
  toDelete : list string;
  toPreserve : list string;
}.

(** ** The cluster manager *)

Section ClusterManager.

(** [uuid.v4()] and [moment.utc().toISOString()]: the [n]-th stamp drawn. *)
Variable uuid_v4 : nat -> string.
Variable utc_now : nat -> string.
(** [ql.DBMS_SECURITY_USER_ROLES], from the query library. *)
Variable DBMS_SECURITY_USER_ROLES : string.
(** [this.ctx] *)
Variable ctx : HalinContext.
(** The order in which the members' branches of a fan-out settle, as
    positions in [members ctx]. *)
Variable arrival : list nat.

(** The copy of [event] that [addEvent] stores when [n] stamps were drawn
    before: [_.cloneDeep] (the identity, a value is never mutated), then the
    three [_.set] calls. *)
Definition stamped (n : nat) (event : Event) : EventLogEntry :=
  {| e_type := type event;
     e_message := message event;
     e_date := utc_now n;
     e_payload := or_else (payload event) JNull;
     e_id := uuid_v4 n |}.

Definition addEvent (event : Event) : sync unit :=
  fun w =>
    if negb (truthy (message event)) || negb (truthy (type event)) then
      (Throw (Error "ClusterManager events must have at least message, type"), w)
    else
      let data := stamped (stamps w) event in
      (Normal tt,
       {| eventLog := Ring.push data (eventLog w); stamps := S (stamps w);
          sentryLog := sentryLog w; wire := wire w |}).

Definition getEventLog (w : world) : list EventLogEntry :=
  Ring.toArray (eventLog w).

(** A caller appending [events] one after the other, and the entries these
    appends build, the first one with stamp [n]. *)
Fixpoint addEvents (events : list Event) : sync unit :=
  match events with
  | [] => ret tt
  | event :: rest => let* _ := addEvent event in addEvents rest
  end.

Fixpoint entries (n : nat) (events : list Event) : list EventLogEntry :=
  match events with
  | [] => []
  | event :: rest => stamped n event :: entries (S n) rest
  end.

Definition mapQueryAcrossCluster (query : string) (ps : params)
    : sync (promise AggregatedResult) :=
  let* promises :=
    mapS (fun node =>
            let* p := run node query ps in
            let p1 := then_ p (fun results => ret (clusterOpSuccess node (PRows results))) in
            ret (catch_ p1 (fun err => clusterOpFailure node err)))
         (members ctx) in
  ret (then_ (Promise_all promises arrival)
             (fun results => ret (packageClusterOpResults results))).

Definition addUser (user : jsval) : sync (promise AggregatedResult) :=
  let* username := lift (getProp user "username") in
  let* password := lift (getProp user "password") in
  if negb (truthy user) || negb (truthy password) then
    throw (Error "Call with object containing keys username, password")
  else
    let* p := mapQueryAcrossCluster
                "CALL dbms.security.createUser({username}, {password}, false)"
                [("username", username); ("password", password)] in
    ret (then_ p (fun result =>
           let* _ := addEvent {| type := JStr "adduser";
                                 message := JStr ("Added user " +:+ quoted (toString username));
                                 payload := username |} in
           ret result)).

Definition deleteUser (user : jsval) : sync (promise AggregatedResult) :=
  let* username := lift (getProp user "username") in
  if negb (truthy username) then
    throw (Error "Call with an object containing keys username")
  else
    let* p := mapQueryAcrossCluster
                "CALL dbms.security.deleteUser({username})"
                [("username", username)] in
    ret (then_ p (fun result =>
           let* _ := addEvent {| type := JStr "deleteuser";
                                 message := JStr ("Deleted user " +:+ quoted (toString username));
                                 payload := username |} in
           ret result)).

Definition addRole (role : jsval) : sync (promise AggregatedResult) :=
  if negb (truthy role) then throw (Error "Must provide role")
  else
    let* p := mapQueryAcrossCluster
                "CALL dbms.security.createRole({role})"
                [("role", role)] in
    ret (then_ p (fun result =>
           let* _ := addEvent {| type := JStr "addrole";
                                 message := JStr ("Created role " +:+ quoted (toString role));
                                 payload := role |} in
           ret result)).

Definition deleteRole (role : jsval) : sync (promise AggregatedResult) :=
  if negb (truthy role) then throw (Error "Must provide role")
  else
    let* p := mapQueryAcrossCluster
                "CALL dbms.security.deleteRole({role})"
                [("role", role)] in
    ret (then_ p (fun result =>
           let* _ := addEvent {| type := JStr "deleterole";
                                 message := JStr ("Deleted role " +:+ quoted (toString role));
                                 payload := role |} in
           ret result)).

(** Specific to a particular node *)
Definition addNodeRole (node : Node) (username : jsval) (role : string)
    : sync (promise (list row)) :=
  let* _ := sentry_info "ADD ROLE" in
  run node "call dbms.security.addRoleToUser({role}, {username})"
      [("username", username); ("role", JStr role)].

(** Specific to a particular node *)
Definition removeNodeRole (node : Node) (username : jsval) (role : string)
    : sync (promise (list row)) :=
  let* _ := sentry_info "REMOVE ROLE" in
  run node "call dbms.security.removeRoleFromUser({role}, {username})"
      [("username", username); ("role", JStr role)].

(** The three closures of [associateUserToRoles]; [username] and [roles] are
    the variables they capture. *)
Definition gatherRoles (username : jsval) (node : Node) : sync (promise (list string)) :=
  let* p := run node DBMS_SECURITY_USER_ROLES [("username", username)] in
  let p1 := then_ p (fun results => unpackResults results ["value"]) in
  let p2 := then_ p1 (fun results => ret (map value results)) in
  ret (then_ p2 (fun r => let* _ := sentry_fine "gather roles made" in ret r)).

Definition determineDifferences (roles : list string) (rolesHere : list string)
    (node : Node) : sync RoleChanges :=
  let* _ := sentry_fine "determine differences" in
  let oldRoles := newSet rolesHere in
  let newRoles := newSet roles in
  let toDelete := newSet (List.filter (fun x => negb (has newRoles x)) oldRoles) in
  let toAdd := newSet (List.filter (fun x => negb (has oldRoles x)) newRoles) in
  let toPreserve := newSet (List.filter (fun x => has newRoles x) oldRoles) in
  let* _ := sentry_fine "Determine differences" in
  let* _ := sentry_fine "Role modification: " in
  ret {| toAdd := toAdd; toDelete := toDelete; toPreserve := toPreserve |}.

Definition applyChanges (username : jsval) (roleChanges : RoleChanges) (node : Node)
    : sync (promise ClusterOpResult) :=
  let toAdd := toAdd roleChanges in
  let toDelete := toDelete roleChanges in
  let* addPromises := mapS (fun role => addNodeRole node username role) toAdd in
  let* delPromises := mapS (fun role => removeNodeRole node username role) toDelete in
  let allRolePromises := addPromises ++ delPromises in
  let p := Promise_all allRolePromises (replyOrder node (length allRolePromises)) in
  let p1 :=
    then_ p (fun _ =>
      let added := join ", " toAdd in
      let removed := join ", " toDelete in
      let addedStr := if truthy (JStr added) then "Added: " +:+ added else EmptyString in
      let removedStr := if truthy (JStr removed) then "Removed: " +:+ removed else EmptyString in
      let results := "Assigned roles to " +:+ toString username +:+ ". "
                     +:+ addedStr +:+ " " +:+ removedStr in
      ret (clusterOpSuccess node (PText results))) in
  ret (catch_ p1 (fun err =>
         let* _ := sentry_reportError err in
         clusterOpFailure node err)).

Definition arrayElements (v : jsval) : list string :=
  match v with JArr l => l | _ => [] end.

Definition associateUserToRoles (user : jsval) (roles : jsval)
    : sync (promise AggregatedResult) :=
  let* _ := sentry_info ("CM associate " +:+ toString user +:+ " to " +:+ toString roles) in
  if negb (isArray roles) then throw (Error "roles must be an array")
  else if negb (isObject user) then throw (Error "user must be an object with username")
  else
    let* username := lift (getProp user "username") in
    if negb (truthy username) then throw (Error "user must be an object with username")
    else
      let roles' := arrayElements roles in
      let* allPromises :=
        mapS (fun node =>
                let* g := gatherRoles username node in
                let p1 := then_ g (fun rolesHere => determineDifferences roles' rolesHere node) in
                let p2 := then_p p1 (fun roleChanges => applyChanges username roleChanges node) in
                let p3 := then_ p2 (fun _ =>
                  addEvent {| type := JStr "roleassoc";
                              message := JStr ("Associated " +:+ quoted (toString username)
                                               +:+ " to roles "
                                               +:+ join ", " (map quoted roles'));
                              payload := JObj [("username", username); ("roles", roles)] |}) in
                let p4 := then_ p3 (fun _ => ret (clusterOpSuccess node PUndefined)) in
                ret (catch_ p4 (fun err => clusterOpFailure node err)))
             (members ctx) in
      ret (then_ (Promise_all allPromises arrival)
                 (fun results => ret (packageClusterOpResults results))).

End ClusterManager.

(** ** Notions used to state the properties *)

Definition valid_event (event : Event) : Prop :=
  truthy (message event) = true /\ truthy (type event) = true.

(** A field that is missing reads as [undefined]; an empty one is the empty
    string. *)
Definition missing_or_empty (v : jsval) : Prop :=
  v = JUndefined \/ v = JStr EmptyString.

(** The slots of [Promise.all] once the promises at the positions [order]
    have fulfilled, the [i]-th one with the [i]-th of [vals]. *)
Definition filled {A : Type} (vals : list A) (order : list nat)
    (values : list (option A)) : list (option A) :=
  foldl (fun vs i => match vals !! i with
                     | Some v => <[i := Some v]> vs
                     | None => vs
                     end) values order.

(** What the answer of [node] to a statement makes of the member's entry:
    the rows on success, the error on failure. *)
Definition memberResult (query : string) (ps : params) (node : Node) : ClusterOpResult :=
  match respond node query ps with
  | inr rows => clusterOpSuccess node (PRows rows)
  | inl e => {| success := false; node := node; addr := getBoltAddress node;
                results := PUndefined; err := Some e |}
  end.

(** Driving the promise that a call returns to settlement. *)
Definition await {A : Type} (c : sync (promise A)) (w : world)
    : completion (settled A) * world :=
  match c w with
  | (Normal p, w1) => let (s, w2) := p w1 in (Normal s, w2)
  | (Throw e, w1) => (Throw e, w1)
  end.

(** The state after the promises at the positions [order] have been driven
    to settlement one after the other. *)
Definition driven {A : Type} (promises : list (promise A)) (order : list nat)
    (w : world) : world :=
  foldl (fun w i => match promises !! i with
                    | Some p => snd (p w)
                    | None => w
                    end) w order.

(** The statement that [run] puts on the wire. *)
Definition requestOf (query : string) (ps : params) (node : Node) : Request :=
  {| rq_addr := getBoltAddress node; rq_query := query; rq_params := ps |}.

(** What a member's branch of the fan-out hands to [sentry]: the error of a
    failed statement, nothing otherwise. *)
Definition memberReports (query : string) (ps : params) (node : Node)
    : list SentryItem :=
  match respond node query ps with
  | inl e => [Report e]
  | inr _ => []
  end.

(** The event log, the stamp counter and the wire are as they were. *)
Definition quiet (w w' : world) : Prop :=
  eventLog w' = eventLog w /\ stamps w' = stamps w /\ wire w' = wire w.

(** A promise that settles as the answer [o] says and touches nothing. *)
Definition answered {A : Type} (o : jserr + A) : promise A :=
  fun w => (match o with
            | inl e => Rejected e
            | inr a => Resolved a
            end, w).

(** Of the answers [os], the error that is seen first when they arrive in
    the order [order]. *)
Definition firstError {A : Type} (os : list (jserr + A)) (order : list nat)
    : option jserr :=
  head (omap (fun i => match os !! i with
                       | Some (inl e) => Some e
                       | _ => None
                       end) order).

(** The values of the answers that are no errors. *)
Definition rights {A : Type} (os : list (jserr + A)) : list A :=
  omap (fun o => match o with inr a => Some a | inl _ => None end) os.

(** The statements of [applyChanges] on a member and the member's answers to
    them: one grant per role to add, then one revoke per role to delete. *)
Definition GRANT : string := "call dbms.security.addRoleToUser({role}, {username})".
Definition REVOKE : string := "call dbms.security.removeRoleFromUser({role}, {username})".
Definition roleParams (username : jsval) (role : string) : params :=
  [("username", username); ("role", JStr role)].
Definition roleRequests (username : jsval) (d : RoleChanges) (node : Node)
    : list Request :=
  map (fun role => requestOf GRANT (roleParams username role) node) (toAdd d)
  ++ map (fun role => requestOf REVOKE (roleParams username role) node) (toDelete d).
Definition roleAnswers (username : jsval) (d : RoleChanges) (node : Node)
    : list (jserr + list row) :=
  map (fun role => respond node GRANT (roleParams username role)) (toAdd d)
  ++ map (fun role => respond node REVOKE (roleParams username role)) (toDelete d).

(** What [gatherRoles] settles to on a member: the member's error, the error
    of [unpackResults], or the role names in the order of the rows. *)
Definition gathered (ROLES : string) (username : jsval) (node : Node)
    : jserr + list string :=
  match respond node ROLES [("username", username)] with
  | inl e => inl e
  | inr rows =>
      match fst (unpackResults rows ["value"] constructor) with
      | Normal rs => inr (map value rs)
      | Throw e => inl e
      end
  end.

Definition gatherOk (ROLES : string) (username : jsval) (node : Node) : bool :=
  match gathered ROLES username node with
  | inr _ => true
  | inl _ => false
  end.

(** The entry that the gather step alone would give a member. *)
Definition roleEntry (ROLES : string) (username : jsval) (node : Node)
    : ClusterOpResult :=
  match gathered ROLES username node with
  | inl e => {| success := false; node := node; addr := getBoltAddress node;
                results := PUndefined; err := Some e |}
  | inr _ => clusterOpSuccess node PUndefined
  end.

(** Between [w] and [w'] exactly [k] entries were appended to the event log,
    all of them satisfying [P]; while there is room they are all there. *)
Definition appended (P : EventLogEntry -> Prop) (k : nat) (w w' : world) : Prop :=
  stamps w' = stamps w + k
  /\ Ring.capacity (eventLog w') = Ring.capacity (eventLog w)
  /\ exists new : list EventLogEntry,
       length new = k /\ Forall P new
       /\ (length (Ring.items (eventLog w)) + k <= Ring.capacity (eventLog w) ->
           Ring.items (eventLog w') = Ring.items (eventLog w) ++ new).

(** The role changes that [determineDifferences] computes from the desired
    roles [rs] and the roles [names] found on a member. *)
Definition roleChangesOf (rs names : list string) (node : Node) : RoleChanges :=
  match fst (determineDifferences rs names node constructor) with
  | Normal d => d
  | Throw _ => {| toAdd := []; toDelete := []; toPreserve := [] |}
  end.

(** The statements that a member's branch of [associateUserToRoles] sends
    after the gather step. *)
Definition memberStatements (ROLES : string) (username : jsval) (rs : list string)
    (node : Node) : list Request :=
  match gathered ROLES username node with
  | inl _ => []
  | inr names => roleRequests username (roleChangesOf rs names node) node
  end.

(** ** Concrete members and clusters for the examples *)

Module Example.

Definition uuid_v4 (n : nat) : string := "uuid-" +:+ pretty n.
Definition utc_now (n : nat) : string := "t" +:+ pretty n.
Definition USER_ROLES : string :=
  "CALL dbms.security.listRolesForUser({username}) YIELD value RETURN value".

(** A member that answers every statement with no rows. *)
Definition memberUp (a : string) : Node :=
  {| getBoltAddress := a;
     respond := fun _ _ => inr [];
     replyOrder := fun n => seq 0 n |}.

(** A member whose every statement fails. *)
Definition memberDown (a : string) : Node :=
  {| getBoltAddress := a;
     respond := fun _ _ => inl (Error "connection refused");
     replyOrder := fun n => seq 0 n |}.

(** A member on which the user has the roles [granted], and on which
    granting or revoking a role of [missing] fails. *)
Definition memberWithRoles (a : string) (granted missing : list string) : Node :=
  {| getBoltAddress := a;
     respond := fun q ps =>
       if String.eqb q USER_ROLES then inr (map (fun r => [("value", r)]) granted)
       else match assoc "role" ps with
            | Some (JStr r) =>
                if bool_decide (r ∈ missing)
                then inl (Error ("Role does not exist: " +:+ r))
                else inr []
            | _ => inr []
            end;
     replyOrder := fun n => seq 0 n |}.

Definition threeMembers : HalinContext :=
  {| members := [memberUp "a:7687"; memberDown "b:7687"; memberUp "c:7687"] |}.

Definition twoMembers : HalinContext :=
  {| members := [memberUp "a:7687"; memberUp "b:7687"] |}.

Definition alice : jsval := JObj [("username", JStr "alice")].

(** The events of a full log and one more. *)
Definition events201 : list Event :=
  replicate 201 {| type := JStr "adduser"; message := JStr "Added user";
                   payload := JNull |}.

End Example.

(** * Properties *)

(** ** The aggregation rule *)

Lemma filter_length_all {A : Type} (p : A -> bool) (l : list A) :
  length (List.filter p l) = length l <-> Forall (fun x => p x = true) l.
Proof.
  induction l as [|x l IH]; simpl.
  - split; [constructor | reflexivity].
  - destruct (p x) eqn:Hx; simpl.
    + rewrite Forall_cons. split.
      * intros H. split; [exact Hx|]. apply IH. lia.
      * intros [_ H]. f_equal. now apply IH.
    + split.
      * intros H. pose proof (List.filter_length_le p l). lia.
      * intros H. apply Forall_cons in H as [H _]. congruence.
Qed.

Lemma filter_length_none {A : Type} (p : A -> bool) (l : list A) :
  length (List.filter (fun x => negb (p x)) l) = 0 <-> Forall (fun x => p x = true) l.
Proof.
  induction l as [|x l IH]; simpl.
  - split; [constructor | reflexivity].
  - rewrite Forall_cons. destruct (p x); simpl.
    + rewrite IH. tauto.
    + split; [discriminate | intros [H _]; discriminate].
Qed.

(** C1: the aggregated [success] is true exactly when every member result
    has [success = true]; equally, exactly when the number [k] of failed
    member results is zero. *)
Theorem packageClusterOpResults_success_iff (rs : list ClusterOpResult) :
  let k := length (List.filter (fun r => negb (success r)) rs) in
  (agg_success (packageClusterOpResults rs) = true
     <-> Forall (fun r => success r = true) rs)
  /\ (agg_success (packageClusterOpResults rs) = true <-> k = 0)
  /\ agg_results (packageClusterOpResults rs) = rs.
Proof.
  cbv zeta. unfold packageClusterOpResults; simpl.
  rewrite Nat.eqb_eq, filter_length_none, filter_length_all.
  repeat split; auto.
Qed.

(** ** The event log *)

Section EventLog.

Variable uuid_v4 : nat -> string.
Variable utc_now : nat -> string.

Lemma missing_or_empty_falsy (v : jsval) : missing_or_empty v -> truthy v = false.
Proof. intros [-> | ->]; reflexivity. Qed.

(** A ring that holds the last [capacity] elements of a history [hist] holds
    the last [capacity] elements of [hist ++ [x]] after [push x]. *)
Lemma push_history {A : Type} (x : A) (r : Ring.t A) (hist : list A) :
  Ring.items r = drop (length hist - Ring.capacity r) hist ->
  Ring.items (Ring.push x r)
  = drop (length (hist ++ [x]) - Ring.capacity r) (hist ++ [x]).
Proof.
  intros Hitems. unfold Ring.push; simpl.
  rewrite Hitems, !length_app, length_drop; simpl.
  destruct (Nat.ltb_spec (Ring.capacity r)
              (length hist - (length hist - Ring.capacity r) + 1)) as [Hlt | Hge].
  - assert (Hd : length hist - Ring.capacity r <= length hist) by lia.
    rewrite <- (drop_app_le hist [x] _ Hd).
    replace (length hist + 1 - Ring.capacity r)
      with (length hist - Ring.capacity r + 1) by lia.
    rewrite <- drop_drop. reflexivity.
  - replace (length hist - Ring.capacity r) with 0 by lia.
    replace (length hist + 1 - Ring.capacity r) with 0 by lia.
    reflexivity.
Qed.

Lemma addEvent_valid (event : Event) (w : world) :
  valid_event event ->
  addEvent uuid_v4 utc_now event w
  = (Normal tt,
     {| eventLog := Ring.push (stamped uuid_v4 utc_now (stamps w) event) (eventLog w);
        stamps := S (stamps w); sentryLog := sentryLog w; wire := wire w |}).
Proof. intros [Hm Ht]. unfold addEvent. rewrite Hm, Ht. reflexivity. Qed.

Lemma addEvents_history (events : list Event) :
  forall (w : world) (hist : list EventLogEntry),
    Forall valid_event events ->
    Ring.items (eventLog w) = drop (length hist - Ring.capacity (eventLog w)) hist ->
    exists w',
      addEvents uuid_v4 utc_now events w = (Normal tt, w')
      /\ Ring.capacity (eventLog w') = Ring.capacity (eventLog w)
      /\ stamps w' = stamps w + length events
      /\ sentryLog w' = sentryLog w /\ wire w' = wire w
      /\ let hist' := hist ++ entries uuid_v4 utc_now (stamps w) events in
         Ring.items (eventLog w')
         = drop (length hist' - Ring.capacity (eventLog w)) hist'.
Proof.
  induction events as [|event rest IH]; intros w hist Hvalid Hitems.
  - exists w. simpl. rewrite app_nil_r, Nat.add_0_r. repeat split; auto.
  - apply Forall_cons in Hvalid as [Hev Hrest].
    simpl. unfold bind. rewrite (addEvent_valid event w Hev).
    pose proof (push_history (stamped uuid_v4 utc_now (stamps w) event)
                  (eventLog w) hist Hitems) as Hpush.
    destruct (IH {| eventLog := Ring.push (stamped uuid_v4 utc_now (stamps w) event)
                                  (eventLog w);
                    stamps := S (stamps w); sentryLog := sentryLog w;
                    wire := wire w |}
                 (hist ++ [stamped uuid_v4 utc_now (stamps w) event]) Hrest Hpush)
      as (w' & Hrun & Hcap & Hst & Hsl & Hwi & Hit).
    exists w'. simpl in *. rewrite Hrun, Hcap, Hst, Hsl, Hwi.
    rewrite <- app_assoc in Hit. simpl in Hit.
    repeat split; auto; lia.
Qed.

Lemma entries_length (n : nat) (events : list Event) :
  length (entries uuid_v4 utc_now n events) = length events.
Proof. revert n; induction events; intros; simpl; auto. Qed.

Lemma entries_id (events : list Event) :
  forall (n : nat) (e : EventLogEntry),
    e ∈ entries uuid_v4 utc_now n events ->
    exists i, n <= i < n + length events /\ e_id e = uuid_v4 i.
Proof.
  induction events as [|event rest IH]; intros n e Hin; simpl in *.
  - inversion Hin.
  - apply elem_of_cons in Hin as [-> | Hin].
    + exists n. split; [lia | reflexivity].
    + destruct (IH _ _ Hin) as (i & Hi & Hid). exists i. split; [lia | exact Hid].
Qed.

(** C8: an event whose [message] or [type] is missing or empty makes
    [addEvent] throw, and the failed call leaves the whole state, hence the
    contents and the size of the event log, as it was. *)
Theorem addEvent_invalid_throws (event : Event) (w : world) :
  missing_or_empty (message event) \/ missing_or_empty (type event) ->
  exists e : jserr,
    addEvent uuid_v4 utc_now event w = (Throw e, w)
    /\ getEventLog (snd (addEvent uuid_v4 utc_now event w)) = getEventLog w
    /\ length (getEventLog (snd (addEvent uuid_v4 utc_now event w)))
       = length (getEventLog w).
Proof.
  intros H.
  assert (Hf : negb (truthy (message event)) || negb (truthy (type event)) = true).
  { destruct H as [H | H]; apply missing_or_empty_falsy in H; rewrite H; simpl; auto.
    apply orb_true_r. }
  exists (Error "ClusterManager events must have at least message, type").
  unfold addEvent. rewrite Hf. auto.
Qed.

(** C7: appending any sequence of valid events to a fresh manager succeeds
    and leaves at most [MAX_EVENTS] = 200 entries, namely the last 200 that
    were built, in the order they were appended.  After 201 appends the log
    has exactly 200 entries, the second to the last appended, oldest first;
    the entry built by the first append is gone (no entry carries its id,
    ids of later draws being different from the first). *)
Theorem eventLog_bounded_fifo (events : list Event) :
  Forall valid_event events ->
  exists w',
    addEvents uuid_v4 utc_now events constructor = (Normal tt, w')
    /\ length (getEventLog w') <= MAX_EVENTS
    /\ getEventLog w'
       = drop (length events - MAX_EVENTS) (entries uuid_v4 utc_now 0 events)
    /\ (length events = 201 ->
        length (getEventLog w') = 200
        /\ getEventLog w' = entries uuid_v4 utc_now 1 (tail events)
        /\ ((forall i, 1 <= i <= 200 -> uuid_v4 i <> uuid_v4 0) ->
            forall e, e ∈ getEventLog w' -> e_id e <> uuid_v4 0)).
Proof.
  intros Hvalid.
  destruct (addEvents_history events constructor [] Hvalid eq_refl)
    as (w' & Hrun & _ & _ & _ & _ & Hit).
  simpl in Hit. exists w'. unfold getEventLog, Ring.toArray.
  rewrite Hit, entries_length.
  split; [exact Hrun|]. split.
  { rewrite length_drop, entries_length. unfold MAX_EVENTS. lia. }
  split; [reflexivity|].
  intros Hlen. destruct events as [|e0 rest]; [discriminate|].
  rewrite Hlen.
  change (drop (201 - MAX_EVENTS) (entries uuid_v4 utc_now 0 (e0 :: rest)))
    with (entries uuid_v4 utc_now 1 rest).
  simpl in Hlen. split; [|split; [reflexivity|]].
  - rewrite entries_length. lia.
  - intros Huniq e Hin. destruct (entries_id _ _ _ Hin) as (i & Hi & ->).
    apply Huniq. lia.
Qed.

End EventLog.

(** ** The role diff *)

Lemma elem_of_List_filter {A : Type} (p : A -> bool) (l : list A) (x : A) :
  x ∈ List.filter p l <-> x ∈ l /\ p x = true.
Proof. rewrite !list_elem_of_In. apply filter_In. Qed.

Lemma NoDup_List_filter {A : Type} (p : A -> bool) (l : list A) :
  NoDup l -> NoDup (List.filter p l).
Proof.
  induction 1 as [|x l Hx Hl IH]; simpl; [constructor|].
  destruct (p x); [|exact IH].
  constructor; [|exact IH].
  rewrite elem_of_List_filter. tauto.
Qed.

Lemma elem_of_Set_addAll (xs : list string) :
  forall (s : list string) (x : string), x ∈ Set_addAll s xs <-> x ∈ s \/ x ∈ xs.
Proof.
  induction xs as [|y xs IH]; intros s x; simpl.
  - rewrite elem_of_nil. tauto.
  - rewrite IH, elem_of_cons. case_bool_decide as Hy.
    + split; [tauto|]. intros [H | [-> | H]]; auto.
    + rewrite elem_of_app, list_elem_of_singleton. tauto.
Qed.

Lemma NoDup_Set_addAll (xs : list string) :
  forall s : list string, NoDup s -> NoDup (Set_addAll s xs).
Proof.
  induction xs as [|y xs IH]; intros s Hs; simpl; [exact Hs|].
  apply IH. case_bool_decide as Hy; [exact Hs|].
  apply NoDup_app. split; [exact Hs|]. split.
  - intros z Hz Hz'. apply list_elem_of_singleton in Hz'. subst. contradiction.
  - apply NoDup_singleton.
Qed.

Lemma Set_addAll_NoDup (xs : list string) :
  forall s : list string,
    NoDup xs -> (forall x, x ∈ xs -> x ∉ s) -> Set_addAll s xs = s ++ xs.
Proof.
  induction xs as [|y xs IH]; intros s Hxs Hdisj; simpl.
  - now rewrite app_nil_r.
  - apply NoDup_cons in Hxs as [Hy Hxs].
    rewrite bool_decide_eq_false_2 by (apply Hdisj; left).
    rewrite IH; [now rewrite <- app_assoc | exact Hxs |].
    intros x Hx. rewrite elem_of_app, list_elem_of_singleton.
    intros [H | ->]; [|contradiction]. apply (Hdisj x); [now right | exact H].
Qed.

Lemma elem_of_newSet (xs : list string) (x : string) : x ∈ newSet xs <-> x ∈ xs.
Proof. unfold newSet. rewrite elem_of_Set_addAll, elem_of_nil. tauto. Qed.

Lemma NoDup_newSet (xs : list string) : NoDup (newSet xs).
Proof. apply NoDup_Set_addAll. constructor. Qed.

Lemma newSet_NoDup (xs : list string) : NoDup xs -> newSet xs = xs.
Proof.
  intros H. unfold newSet. rewrite Set_addAll_NoDup; auto.
  intros x _. apply not_elem_of_nil.
Qed.

Lemma has_true (s : list string) (x : string) : has s x = true <-> x ∈ s.
Proof. unfold has. apply bool_decide_eq_true. Qed.

Lemma List_filter_nil {A : Type} (p : A -> bool) (l : list A) :
  (forall x, x ∈ l -> p x = false) -> List.filter p l = [].
Proof.
  induction l as [|y l IH]; intros H; simpl; [reflexivity|].
  rewrite (H y) by left. apply IH. intros x Hx. apply H. now right.
Qed.

(** Set equations over [gset string], by membership in each side. *)
Ltac by_membership :=
  apply set_eq; intros ?;
  rewrite ?elem_of_union, ?elem_of_intersection, ?elem_of_difference, ?elem_of_empty;
  tauto.

(** C9: the role diff that [determineDifferences] returns is, as sets,
    [toDelete = existing - desired], [toAdd = desired - existing] and
    [toPreserve = existing ∩ desired]; the three are pairwise disjoint,
    [toPreserve ∪ toAdd] is the desired set, and on a converged node (the
    existing set equals the desired one) nothing is added or deleted. *)
Theorem determineDifferences_partition
    (roles rolesHere : list string) (node : Node) (w : world) :
  exists (d : RoleChanges) (w' : world),
    determineDifferences roles rolesHere node w = (Normal d, w')
    /\ let existing : gset string := list_to_set rolesHere in
       let desired : gset string := list_to_set roles in
       let add : gset string := list_to_set (toAdd d) in
       let del : gset string := list_to_set (toDelete d) in
       let keep : gset string := list_to_set (toPreserve d) in
       del = existing ∖ desired
       /\ add = desired ∖ existing
       /\ keep = existing ∩ desired
       /\ add ∩ del = ∅ /\ add ∩ keep = ∅ /\ del ∩ keep = ∅
       /\ keep ∪ add = desired
       /\ NoDup (toAdd d) /\ NoDup (toDelete d) /\ NoDup (toPreserve d)
       /\ (existing = desired -> toAdd d = [] /\ toDelete d = []).
Proof.
  eexists _, _. split.
  { unfold determineDifferences, bind, sentry_fine, ret.
    cbv beta iota zeta. reflexivity. }
  cbn [toAdd toDelete toPreserve]. cbv zeta.
  repeat rewrite (newSet_NoDup (List.filter _ (newSet _)))
    by (apply NoDup_List_filter, NoDup_newSet).
  assert (Hdel : (list_to_set (List.filter (fun x => negb (has (newSet roles) x))
                                 (newSet rolesHere)) : gset string)
                 = list_to_set rolesHere ∖ list_to_set roles).
  { apply set_eq. intros x.
    rewrite elem_of_difference, !elem_of_list_to_set, elem_of_List_filter,
      negb_true_iff, <- not_true_iff_false, has_true, !elem_of_newSet. tauto. }
  assert (Hadd : (list_to_set (List.filter (fun x => negb (has (newSet rolesHere) x))
                                 (newSet roles)) : gset string)
                 = list_to_set roles ∖ list_to_set rolesHere).
  { apply set_eq. intros x.
    rewrite elem_of_difference, !elem_of_list_to_set, elem_of_List_filter,
      negb_true_iff, <- not_true_iff_false, has_true, !elem_of_newSet. tauto. }
  assert (Hkeep : (list_to_set (List.filter (fun x => has (newSet roles) x)
                                  (newSet rolesHere)) : gset string)
                  = list_to_set rolesHere ∩ list_to_set roles).
  { apply set_eq. intros x.
    rewrite elem_of_intersection, !elem_of_list_to_set, elem_of_List_filter,
      has_true, !elem_of_newSet. tauto. }
  rewrite Hdel, Hadd, Hkeep.
  clear Hdel Hadd Hkeep.
  split; [reflexivity|]. split; [reflexivity|]. split; [reflexivity|].
  split; [by_membership|]. split; [by_membership|]. split; [by_membership|].
  split.
  { apply set_eq. intros x.
    rewrite elem_of_union, elem_of_intersection, elem_of_difference.
    destruct (decide (x ∈ (list_to_set rolesHere : gset string))); tauto. }
  split; [apply NoDup_List_filter, NoDup_newSet|].
  split; [apply NoDup_List_filter, NoDup_newSet|].
  split; [apply NoDup_List_filter, NoDup_newSet|].
  intros Heq. split.
  - apply List_filter_nil. intros x Hx. apply negb_false_iff, has_true.
    rewrite elem_of_newSet in *.
    apply (elem_of_list_to_set (C := gset string)).
    rewrite Heq. now apply elem_of_list_to_set.
  - apply List_filter_nil. intros x Hx. apply negb_false_iff, has_true.
    rewrite elem_of_newSet in *.
    apply (elem_of_list_to_set (C := gset string)).
    rewrite <- Heq. now apply elem_of_list_to_set.
Qed.

(** ** [Promise.all] over promises that all fulfil *)

Section PromiseAll.

Context {A : Type}.
Variable promises : list (promise A).
Variable vals : list A.
(** Whatever the state it is driven in, the [i]-th promise fulfils with the
    [i]-th value. *)
Hypothesis fulfils :
  Forall2 (fun p v => forall w, exists w', p w = (Resolved v, w')) promises vals.

Lemma settle_each_fulfilled (order : list nat) :
  forall (values : list (option A)) (w : world),
    exists w', settle_each promises order values None w
               = (filled vals order values, None, w').
Proof.
  induction order as [|i rest IH]; intros values w; simpl.
  - now exists w.
  - destruct (promises !! i) as [p|] eqn:Hp.
    + destruct (Forall2_lookup_l _ _ _ _ _ fulfils Hp) as (v & Hv & Hrun).
      destruct (Hrun w) as (w1 & ->). rewrite Hv. apply IH.
    + assert (vals !! i = None) as ->.
      { apply lookup_ge_None. rewrite <- (Forall2_length _ _ _ fulfils).
        now apply lookup_ge_None. }
      apply IH.
Qed.

Lemma filled_length (order : list nat) :
  forall values : list (option A), length (filled vals order values) = length values.
Proof.
  induction order as [|i rest IH]; intros values; simpl; [reflexivity|].
  rewrite IH. destruct (vals !! i); [apply length_insert | reflexivity].
Qed.

Lemma filled_stable (order : list nat) (i : nat) (v : A) :
  vals !! i = Some v ->
  forall values : list (option A),
    values !! i = Some (Some v) -> filled vals order values !! i = Some (Some v).
Proof.
  intros Hv. induction order as [|j rest IH]; intros values Hi; simpl; [exact Hi|].
  apply IH. destruct (vals !! j) as [u|] eqn:Hu; [|exact Hi].
  destruct (decide (j = i)) as [-> | Hne].
  - rewrite Hv in Hu. injection Hu as <-.
    apply list_lookup_insert_eq. now apply lookup_lt_Some in Hi.
  - now rewrite list_lookup_insert_ne.
Qed.

Lemma filled_lookup (order : list nat) (i : nat) (v : A) :
  vals !! i = Some v -> i ∈ order ->
  forall values : list (option A),
    i < length values -> filled vals order values !! i = Some (Some v).
Proof.
  intros Hv. induction order as [|j rest IH]; intros Hin values Hlen.
  - inversion Hin.
  - simpl. apply elem_of_cons in Hin as [<- | Hin].
    + rewrite Hv. apply filled_stable; [exact Hv|].
      now apply list_lookup_insert_eq.
    + apply IH; [exact Hin|].
      destruct (vals !! j); [now rewrite length_insert | exact Hlen].
Qed.

(** The whole fulfils with the values in the order of the promises,
    whichever order they settled in. *)
Lemma Promise_all_fulfilled (order : list nat) (w : world) :
  order ≡ₚ seq 0 (length promises) ->
  exists w', Promise_all promises order w = (Resolved vals, w').
Proof.
  intros Hperm. unfold Promise_all.
  destruct (settle_each_fulfilled order (replicate (length promises) None) w)
    as (w' & ->).
  exists w'.
  assert (Hlen : length vals = length promises)
    by (symmetry; apply (Forall2_length _ _ _ fulfils)).
  assert (Hfill : filled vals order (replicate (length promises) None) = Some <$> vals).
  { apply list_eq. intros i. rewrite list_lookup_fmap.
    destruct (vals !! i) as [v|] eqn:Hv; simpl.
    - apply filled_lookup; [exact Hv | |].
      + rewrite Hperm. apply elem_of_seq. apply lookup_lt_Some in Hv. lia.
      + rewrite length_replicate. apply lookup_lt_Some in Hv. lia.
    - apply lookup_ge_None. rewrite filled_length, length_replicate.
      apply lookup_ge_None in Hv. lia. }
  rewrite Hfill, (mapM_fmap_Some id Some vals) by reflexivity.
  reflexivity.
Qed.

End PromiseAll.

(** With no promise at all the whole fulfils at once, with no value. *)
Lemma settle_each_nil {A : Type} (order : list nat) (w : world) :
  settle_each (@nil (promise A)) order [] None w = ([], None, w).
Proof. induction order as [|i rest IH]; simpl; [reflexivity | exact IH]. Qed.

(** ** The fan-out executor *)

Lemma bind_Normal {A B : Type} (c : sync A) (k : A -> sync B)
    (w w1 : world) (a : A) :
  c w = (Normal a, w1) -> bind c k w = k a w1.
Proof. intros H. unfold bind. now rewrite H. Qed.

Section FanOut.

Variable ctx : HalinContext.
Variables (query : string) (ps : params).

(** The branch of one member always fulfils, with the envelope of the
    member's answer. *)
Lemma member_branch_fulfils (node : Node) (p : promise (list row)) (w : world) :
  (forall w0, p w0 = (match respond node query ps with
                      | inl e => Rejected e
                      | inr rows => Resolved rows
                      end, w0)) ->
  exists w',
    catch_ (then_ p (fun results => ret (clusterOpSuccess node (PRows results))))
           (fun err => clusterOpFailure node err) w
    = (Resolved (memberResult query ps node), w').
Proof.
  intros Hp. unfold catch_, then_, memberResult. rewrite Hp.
  destruct (respond node query ps) as [e | rows]; simpl; eauto.
Qed.

Lemma member_branches_fulfil (nodes : list Node) :
  forall w : world,
    exists (promises : list (promise ClusterOpResult)) (w1 : world),
      mapS (fun node =>
              let* p := run node query ps in
              let p1 := then_ p (fun results => ret (clusterOpSuccess node (PRows results))) in
              ret (catch_ p1 (fun err => clusterOpFailure node err)))
           nodes w
      = (Normal promises, w1)
      /\ Forall2 (fun p r => forall w0, exists w', p w0 = (Resolved r, w'))
                 promises (map (memberResult query ps) nodes).
Proof.
  induction nodes as [|node rest IH]; intros w; simpl.
  - exists [], w. split; [reflexivity | constructor].
  - unfold bind at 1. unfold run at 1. unfold bind at 1. unfold ret at 1.
    set (w1 := {| eventLog := eventLog w; stamps := stamps w;
                  sentryLog := sentryLog w;
                  wire := wire w ++ [{| rq_addr := getBoltAddress node;
                                        rq_query := query; rq_params := ps |}] |}).
    destruct (IH w1) as (promises & w2 & Hrun & Hall).
    unfold bind at 1. cbv zeta in Hrun. rewrite Hrun. unfold ret at 1.
    eexists _, _. split; [reflexivity|].
    constructor; [|exact Hall].
    intros w0. apply member_branch_fulfils. reflexivity.
Qed.

Lemma mapQuery_settles (arrival : list nat) (w : world) :
  arrival ≡ₚ seq 0 (length (members ctx)) ->
  exists (p : promise AggregatedResult) (w1 w2 : world),
    mapQueryAcrossCluster ctx arrival query ps w = (Normal p, w1)
    /\ p w1 = (Resolved (packageClusterOpResults
                           (map (memberResult query ps) (members ctx))), w2).
Proof.
  intros Hperm. unfold mapQueryAcrossCluster.
  destruct (member_branches_fulfil (members ctx) w) as (promises & w1 & Hrun & Hall).
  rewrite (bind_Normal _ _ _ _ _ Hrun). unfold ret at 1.
  assert (Hlen : length promises = length (members ctx)).
  { pose proof (Forall2_length _ _ _ Hall) as Hl.
    rewrite length_map in Hl. exact Hl. }
  rewrite <- Hlen in Hperm.
  destruct (Promise_all_fulfilled promises _ Hall arrival w1 Hperm) as (w2 & Hw2).
  eexists _, w1, w2. split; [reflexivity|].
  unfold then_. rewrite Hw2. reflexivity.
Qed.

End FanOut.

(** C2: whatever the members answer and in whatever order they answer,
    [mapQueryAcrossCluster] returns a promise without throwing and the
    promise fulfils with an aggregated result: a member whose statement
    failed has an entry with [success = false] that carries the error, a
    member whose statement succeeded has an entry with [success = true] that
    carries the rows. *)
Theorem mapQueryAcrossCluster_never_rejects
    (ctx : HalinContext) (arrival : list nat) (query : string) (ps : params)
    (w : world) :
  arrival ≡ₚ seq 0 (length (members ctx)) ->
  exists (p : promise AggregatedResult) (w1 : world)
         (agg : AggregatedResult) (w2 : world),
    mapQueryAcrossCluster ctx arrival query ps w = (Normal p, w1)
    /\ p w1 = (Resolved agg, w2)
    /\ Forall2 (fun member r =>
                  node r = member
                  /\ match respond member query ps with
                     | inl e => success r = false /\ err r = Some e
                     | inr rows =>
                         success r = true /\ results r = PRows rows /\ err r = None
                     end)
               (members ctx) (agg_results agg).
Proof.
  intros Hperm.
  destruct (mapQuery_settles ctx query ps arrival w Hperm) as (p & w1 & w2 & Hp & Hs).
  eexists p, w1, _, w2. split; [exact Hp|]. split; [exact Hs|].
  simpl. apply Forall2_fmap_r, Forall_Forall2_diag, Forall_forall.
  intros member _. unfold compose, memberResult.
  destruct (respond member query ps); simpl; auto.
Qed.

Lemma mapQueryAcrossCluster_never_rejects_witness :
  exists (p : promise AggregatedResult) (w1 : world)
         (agg : AggregatedResult) (w2 : world),
    mapQueryAcrossCluster Example.threeMembers [2; 0; 1] "RETURN 1" [] constructor
    = (Normal p, w1)
    /\ p w1 = (Resolved agg, w2)
    /\ map success (agg_results agg) = [true; false; true].
Proof.
  destruct (mapQueryAcrossCluster_never_rejects
              Example.threeMembers [2; 0; 1] "RETURN 1" [] constructor)
    as (p & w1 & agg & w2 & Hp & Hs & _).
  - apply (bool_decide_unpack _). vm_compute. reflexivity.
  - exists p, w1, agg, w2. split; [exact Hp|]. split; [exact Hs|].
    vm_compute in Hp. injection Hp as <- <-. vm_compute in Hs.
    injection Hs as <- _. reflexivity.
Defined.

(** C3: the aggregated result has one entry per member, the [i]-th entry is
    the one of the [i]-th member of the collection, and the result is the
    same for any two orders in which the members' branches settle. *)
Theorem mapQueryAcrossCluster_results_in_member_order
    (ctx : HalinContext) (arrival arrival' : list nat) (query : string)
    (ps : params) (w : world) :
  arrival ≡ₚ seq 0 (length (members ctx)) ->
  arrival' ≡ₚ seq 0 (length (members ctx)) ->
  exists (agg : AggregatedResult) (p p' : promise AggregatedResult)
         (w1 w2 w1' w2' : world),
    mapQueryAcrossCluster ctx arrival query ps w = (Normal p, w1)
    /\ p w1 = (Resolved agg, w2)
    /\ mapQueryAcrossCluster ctx arrival' query ps w = (Normal p', w1')
    /\ p' w1' = (Resolved agg, w2')
    /\ length (agg_results agg) = length (members ctx)
    /\ forall (i : nat) (member : Node),
         members ctx !! i = Some member ->
         exists r, agg_results agg !! i = Some r
                   /\ node r = member
                   /\ addr r = getBoltAddress member
                   /\ r = memberResult query ps member.
Proof.
  intros Hperm Hperm'.
  destruct (mapQuery_settles ctx query ps arrival w Hperm) as (p & w1 & w2 & Hp & Hs).
  destruct (mapQuery_settles ctx query ps arrival' w Hperm')
    as (p' & w1' & w2' & Hp' & Hs').
  eexists _, p, p', w1, w2, w1', w2'.
  repeat (split; [eassumption|]). simpl. split; [apply length_map|].
  intros i member Hi. exists (memberResult query ps member).
  rewrite list_lookup_fmap, Hi. simpl. split; [reflexivity|].
  unfold memberResult. destruct (respond member query ps); simpl; auto.
Qed.

Lemma mapQueryAcrossCluster_results_in_member_order_witness :
  exists (agg : AggregatedResult),
    map addr (agg_results agg) = ["a:7687"; "b:7687"; "c:7687"]
    /\ (exists p w1 w2,
          mapQueryAcrossCluster Example.threeMembers [2; 0; 1] "RETURN 1" [] constructor
          = (Normal p, w1) /\ p w1 = (Resolved agg, w2))
    /\ (exists p w1 w2,
          mapQueryAcrossCluster Example.threeMembers [1; 2; 0] "RETURN 1" [] constructor
          = (Normal p, w1) /\ p w1 = (Resolved agg, w2)).
Proof.
  destruct (mapQueryAcrossCluster_results_in_member_order
              Example.threeMembers [2; 0; 1] [1; 2; 0] "RETURN 1" [] constructor)
    as (agg & p & p' & w1 & w2 & w1' & w2' & Hp & Hs & Hp' & Hs' & _ & _).
  - apply (bool_decide_unpack _). vm_compute. reflexivity.
  - apply (bool_decide_unpack _). vm_compute. reflexivity.
  - exists agg. split.
    + vm_compute in Hp. injection Hp as <- <-. vm_compute in Hs.
      injection Hs as <- _. reflexivity.
    + split; [exists p, w1, w2 | exists p', w1', w2']; auto.
Defined.

(** C10: on an empty member collection [mapQueryAcrossCluster] fulfils with
    [success = true] and no results, whatever the order given. *)
Theorem mapQueryAcrossCluster_empty_cluster
    (arrival : list nat) (query : string) (ps : params) (w : world) :
  exists p : promise AggregatedResult,
    mapQueryAcrossCluster {| members := [] |} arrival query ps w = (Normal p, w)
    /\ p w = (Resolved {| agg_success := true; agg_results := [] |}, w).
Proof.
  eexists. split; [reflexivity|].
  unfold then_, Promise_all. simpl. rewrite settle_each_nil. reflexivity.
Qed.

(** ** The properties on concrete inputs *)

Lemma addEvent_invalid_throws_witness :
  exists e : jserr,
    addEvent Example.uuid_v4 Example.utc_now
      {| type := JStr "adduser"; message := JUndefined; payload := JNull |}
      constructor
    = (Throw e, constructor).
Proof.
  destruct (addEvent_invalid_throws Example.uuid_v4 Example.utc_now
              {| type := JStr "adduser"; message := JUndefined; payload := JNull |}
              constructor) as (e & He & _).
  - left. left. reflexivity.
  - exists e. exact He.
Defined.

Lemma Example_uuid_v4_fresh (i : nat) :
  1 <= i <= 200 -> Example.uuid_v4 i <> Example.uuid_v4 0.
Proof.
  intros Hi Heq. unfold Example.uuid_v4 in Heq. simpl in Heq.
  injection Heq as Heq. apply pretty_nat_inj in Heq. lia.
Qed.

Lemma eventLog_bounded_fifo_witness :
  exists w',
    addEvents Example.uuid_v4 Example.utc_now Example.events201 constructor
    = (Normal tt, w')
    /\ length (getEventLog w') = 200
    /\ forall e, e ∈ getEventLog w' -> e_id e <> Example.uuid_v4 0.
Proof.
  destruct (eventLog_bounded_fifo Example.uuid_v4 Example.utc_now Example.events201)
    as (w' & Hrun & _ & _ & H201).
  - apply Forall_replicate. split; reflexivity.
  - destruct (H201 eq_refl) as (Hlen & _ & Habsent).
    exists w'. split; [exact Hrun|]. split; [exact Hlen|].
    apply Habsent, Example_uuid_v4_fresh.
Defined.

Lemma determineDifferences_partition_witness :
  exists (d : RoleChanges) (w' : world),
    determineDifferences ["reader"; "writer"] ["writer"; "reader"]
      (Example.memberUp "a:7687") constructor
    = (Normal d, w')
    /\ toAdd d = [] /\ toDelete d = [].
Proof.
  destruct (determineDifferences_partition ["reader"; "writer"] ["writer"; "reader"]
              (Example.memberUp "a:7687") constructor)
    as (d & w' & Hrun & _ & _ & _ & _ & _ & _ & _ & _ & _ & _ & Hconv).
  exists d, w'. split; [exact Hrun|]. apply Hconv.
  apply set_eq. intros x. rewrite !elem_of_list_to_set, !elem_of_cons, elem_of_nil.
  tauto.
Defined.

(** The spec's scenario: existing [{admin, reader}], desired
    [{reader, writer}]. *)
Example determineDifferences_scenario (w : world) :
  fst (determineDifferences ["reader"; "writer"] ["admin"; "reader"]
         (Example.memberUp "a:7687") w)
  = Normal {| toAdd := ["writer"]; toDelete := ["admin"]; toPreserve := ["reader"] |}.
Proof. reflexivity. Qed.

(** ** Where the code departs from the specification *)

(** C6: an object without [username] but with a [password] passes the guard
    of [addUser] (which tests [user], not [username]): nothing is thrown,
    the create-user statement goes to every member with an undefined
    username, and the event is logged. *)
Theorem addUser_without_username_reaches_members :
  exists (agg : AggregatedResult) (w' : world),
    await (addUser Example.uuid_v4 Example.utc_now Example.twoMembers [0; 1]
             (JObj [("password", JStr "x")])) constructor
    = (Normal (Resolved agg), w')
    /\ map rq_addr (wire w') = ["a:7687"; "b:7687"]
    /\ map rq_params (wire w')
       = [[("username", JUndefined); ("password", JStr "x")];
          [("username", JUndefined); ("password", JStr "x")]]
    /\ map e_type (getEventLog w') = [JStr "adduser"].
Proof.
  eexists _, _. split; [vm_compute; reflexivity|].
  vm_compute. repeat split.
Qed.

(** The guard of [addUser] does reject an object without a truthy
    [password], before anything is sent. *)
Lemma addUser_without_password_throws
    (uuid_v4 utc_now : nat -> string) (ctx : HalinContext) (arrival : list nat)
    (fields : list (string * jsval)) (w : world) :
  truthy (default JUndefined (assoc "password" fields)) = false ->
  addUser uuid_v4 utc_now ctx arrival (JObj fields) w
  = (Throw (Error "Call with object containing keys username, password"), w).
Proof.
  intros Hpw. unfold addUser, bind, lift, getProp, throw. simpl.
  rewrite Hpw. reflexivity.
Qed.

(** An object with a truthy [password] makes [addUser] return a promise. *)
Lemma addUser_with_password_returns
    (uuid_v4 utc_now : nat -> string) (ctx : HalinContext) (arrival : list nat)
    (fields : list (string * jsval)) (w : world) :
  truthy (default JUndefined (assoc "password" fields)) = true ->
  exists (p : promise AggregatedResult) (w1 : world),
    addUser uuid_v4 utc_now ctx arrival (JObj fields) w = (Normal p, w1).
Proof.
  intros Hpw. unfold addUser, lift, getProp.
  unfold bind at 1. unfold bind at 1. simpl. rewrite Hpw. simpl.
  unfold mapQueryAcrossCluster.
  match goal with
  | |- context [mapS ?f (members ctx)] =>
      destruct (member_branches_fulfil
                  "CALL dbms.security.createUser({username}, {password}, false)"
                  [("username", default JUndefined (assoc "username" fields));
                   ("password", default JUndefined (assoc "password" fields))]
                  (members ctx) w) as (promises & w1 & Hrun & _)
  end.
  erewrite bind_Normal; [|erewrite bind_Normal; [|exact Hrun]; reflexivity].
  eexists _, _. reflexivity.
Qed.

(** C4: one member, on which granting [admin] fails while granting [reader]
    and revoking [old] succeed.  [applyChanges] yields the failure envelope,
    but the steps chained after it drop that value: the member's entry in the
    aggregated result is a success without error.  All three statements were
    sent and none was undone. *)
Theorem associateUserToRoles_apply_failure_masked :
  let member := Example.memberWithRoles "a:7687" ["old"] ["admin"] in
  exists (agg : AggregatedResult) (w' : world),
    await (associateUserToRoles Example.uuid_v4 Example.utc_now Example.USER_ROLES
             {| members := [member] |} [0]
             Example.alice (JArr ["reader"; "admin"])) constructor
    = (Normal (Resolved agg), w')
    /\ respond member "call dbms.security.addRoleToUser({role}, {username})"
         [("username", JStr "alice"); ("role", JStr "admin")]
       = inl (Error "Role does not exist: admin")
    /\ agg_success agg = true
    /\ map success (agg_results agg) = [true]
    /\ map err (agg_results agg) = [None]
    /\ map (fun r => (rq_query r, assoc "role" (rq_params r))) (wire w')
       = [(Example.USER_ROLES, None);
          ("call dbms.security.addRoleToUser({role}, {username})", Some (JStr "reader"));
          ("call dbms.security.addRoleToUser({role}, {username})", Some (JStr "admin"));
          ("call dbms.security.removeRoleFromUser({role}, {username})", Some (JStr "old"))].
Proof.
  eexists _, _. split; [vm_compute; reflexivity|].
  vm_compute. repeat split.
Qed.

(** C5: [associateUserToRoles] appends its [roleassoc] event inside each
    member's branch: two entries on a cluster of two members that both
    complete, none on a cluster whose only member fails to report the user's
    roles. *)
Theorem associateUserToRoles_one_event_per_member :
  (exists (agg : AggregatedResult) (w' : world),
     await (associateUserToRoles Example.uuid_v4 Example.utc_now Example.USER_ROLES
              {| members := [Example.memberWithRoles "a:7687" ["reader"] [];
                             Example.memberWithRoles "b:7687" ["reader"] []] |}
              [0; 1] Example.alice (JArr ["reader"])) constructor
     = (Normal (Resolved agg), w')
     /\ agg_success agg = true
     /\ map e_type (getEventLog w') = [JStr "roleassoc"; JStr "roleassoc"])
  /\ (exists (agg : AggregatedResult) (w' : world),
        await (associateUserToRoles Example.uuid_v4 Example.utc_now Example.USER_ROLES
                 {| members := [Example.memberDown "a:7687"] |}
                 [0] Example.alice (JArr ["reader"])) constructor
        = (Normal (Resolved agg), w')
        /\ agg_success agg = false
        /\ getEventLog w' = []).
Proof.
  split; (eexists _, _; split; [vm_compute; reflexivity|]); vm_compute; repeat split.
Qed.

(** * Further properties of the cluster manager *)

(** ** [Promise.all] and the state *)

Lemma driven_cons {A : Type} (promises : list (promise A)) (i : nat)
    (rest : list nat) (w : world) :
  driven promises (i :: rest) w
  = driven promises rest (match promises !! i with
                          | Some p => snd (p w)
                          | None => w
                          end).
Proof. reflexivity. Qed.

Section PromiseAllState.

Context {A : Type}.
Variable promises : list (promise A).
Variable vals : list A.
Hypothesis fulfils :
  Forall2 (fun p v => forall w, fst (p w) = Resolved v) promises vals.

Lemma settle_each_driven (order : list nat) :
  forall (values : list (option A)) (w : world),
    settle_each promises order values None w
    = (filled vals order values, None, driven promises order w).
Proof.
  induction order as [|i rest IH]; intros values w; [reflexivity|].
  rewrite driven_cons. cbn [settle_each filled foldl].
  destruct (promises !! i) as [p|] eqn:Hp.
  - destruct (Forall2_lookup_l _ _ _ _ _ fulfils Hp) as (v & Hv & Hrun).
    specialize (Hrun w). destruct (p w) as [s w1] eqn:Hpw. simpl in Hrun.
    subst s. rewrite Hv. apply IH.
  - assert (vals !! i = None) as ->.
    { apply lookup_ge_None. rewrite <- (Forall2_length _ _ _ fulfils).
      now apply lookup_ge_None. }
    apply IH.
Qed.

Lemma Promise_all_driven (order : list nat) (w : world) :
  order ≡ₚ seq 0 (length promises) ->
  Promise_all promises order w = (Resolved vals, driven promises order w).
Proof.
  intros Hperm. unfold Promise_all. rewrite settle_each_driven.
  assert (Hlen : length vals = length promises)
    by (symmetry; apply (Forall2_length _ _ _ fulfils)).
  assert (Hfill : filled vals order (replicate (length promises) None) = Some <$> vals).
  { apply list_eq. intros i. rewrite list_lookup_fmap.
    destruct (vals !! i) as [v|] eqn:Hv; simpl.
    - apply filled_lookup; [exact Hv | |].
      + rewrite Hperm. apply elem_of_seq. apply lookup_lt_Some in Hv. lia.
      + rewrite length_replicate. apply lookup_lt_Some in Hv. lia.
    - apply lookup_ge_None. rewrite filled_length, length_replicate.
      apply lookup_ge_None in Hv. lia. }
  rewrite Hfill, (mapM_fmap_Some id Some vals) by reflexivity.
  reflexivity.
Qed.

End PromiseAllState.

(** What every promise keeps, the whole keeps. *)
Lemma driven_keeps {A : Type} (promises : list (promise A))
    (R : world -> world -> Prop) :
  (forall w, R w w) ->
  (forall w1 w2 w3, R w1 w2 -> R w2 w3 -> R w1 w3) ->
  Forall (fun p => forall w, R w (snd (p w))) promises ->
  forall (order : list nat) (w : world), R w (driven promises order w).
Proof.
  intros Hrefl Htrans Hall order. induction order as [|i rest IH]; intros w.
  - apply Hrefl.
  - rewrite driven_cons. destruct (promises !! i) as [p|] eqn:Hp.
    + eapply Htrans; [|apply IH].
      apply (proj1 (Forall_lookup _ _) Hall i p Hp).
    + apply IH.
Qed.

(** The promises only append to [sentry]: the whole appends what they
    append, in the order they settle. *)
Lemma driven_sentryLog {A : Type} (promises : list (promise A))
    (reports : list (list SentryItem)) :
  Forall2 (fun p r => forall w, sentryLog (snd (p w)) = sentryLog w ++ r)
          promises reports ->
  forall (order : list nat) (w : world),
    sentryLog (driven promises order w)
    = sentryLog w ++ concat (map (fun i => default [] (reports !! i)) order).
Proof.
  intros Hall order. induction order as [|i rest IH]; intros w.
  - simpl. now rewrite app_nil_r.
  - rewrite driven_cons. cbn [map concat].
    destruct (promises !! i) as [p|] eqn:Hp.
    + destruct (Forall2_lookup_l _ _ _ _ _ Hall Hp) as (r & Hr & Hp').
      rewrite IH, Hp', Hr. simpl. now rewrite app_assoc.
    + assert (reports !! i = None) as ->.
      { apply lookup_ge_None. rewrite <- (Forall2_length _ _ _ Hall).
        now apply lookup_ge_None. }
      simpl. apply IH.
Qed.

(** The same for any list in the state that the promises only append to. *)
Lemma driven_grows {A X : Type} (proj : world -> list X)
    (promises : list (promise A)) (news : list (list X)) :
  Forall2 (fun p r => forall w, proj (snd (p w)) = proj w ++ r) promises news ->
  forall (order : list nat) (w : world),
    proj (driven promises order w)
    = proj w ++ concat (map (fun i => default [] (news !! i)) order).
Proof.
  intros Hall order. induction order as [|i rest IH]; intros w.
  - simpl. now rewrite app_nil_r.
  - rewrite driven_cons. cbn [map concat].
    destruct (promises !! i) as [p|] eqn:Hp.
    + destruct (Forall2_lookup_l _ _ _ _ _ Hall Hp) as (r & Hr & Hp').
      rewrite IH, Hp', Hr. simpl. now rewrite app_assoc.
    + assert (news !! i = None) as ->.
      { apply lookup_ge_None. rewrite <- (Forall2_length _ _ _ Hall).
        now apply lookup_ge_None. }
      simpl. apply IH.
Qed.

(** ** What the fan-out sends, logs and reports *)

Lemma quiet_refl (w : world) : quiet w w.
Proof. repeat split. Qed.

Lemma quiet_trans (w1 w2 w3 : world) : quiet w1 w2 -> quiet w2 w3 -> quiet w1 w3.
Proof.
  intros (H1 & H2 & H3) (H4 & H5 & H6). repeat split; congruence.
Qed.

Section FanOutEffects.

Variable ctx : HalinContext.
Variables (query : string) (ps : params).

Lemma member_branch_effects (node : Node) (p : promise (list row)) (w : world) :
  (forall w0, p w0 = (match respond node query ps with
                      | inl e => Rejected e
                      | inr rows => Resolved rows
                      end, w0)) ->
  let r := catch_ (then_ p (fun results => ret (clusterOpSuccess node (PRows results))))
                  (fun err => clusterOpFailure node err) w in
  fst r = Resolved (memberResult query ps node)
  /\ quiet w (snd r)
  /\ sentryLog (snd r) = sentryLog w ++ memberReports query ps node.
Proof.
  intros Hp. unfold catch_, then_, memberResult, memberReports, quiet. rewrite Hp.
  destruct (respond node query ps) as [e | rows]; simpl;
    rewrite ?app_nil_r; auto.
Qed.

Lemma member_branches_sent (nodes : list Node) :
  forall w : world,
    exists promises : list (promise ClusterOpResult),
      mapS (fun node =>
              let* p := run node query ps in
              let p1 := then_ p (fun results => ret (clusterOpSuccess node (PRows results))) in
              ret (catch_ p1 (fun err => clusterOpFailure node err)))
           nodes w
      = (Normal promises,
         {| eventLog := eventLog w; stamps := stamps w; sentryLog := sentryLog w;
            wire := wire w ++ map (requestOf query ps) nodes |})
      /\ Forall2 (fun p node =>
                    forall w0,
                      fst (p w0) = Resolved (memberResult query ps node)
                      /\ quiet w0 (snd (p w0))
                      /\ sentryLog (snd (p w0))
                         = sentryLog w0 ++ memberReports query ps node)
                 promises nodes.
Proof.
  induction nodes as [|node rest IH]; intros w; simpl.
  - exists []. rewrite app_nil_r. destruct w. split; [reflexivity | constructor].
  - unfold bind at 1. unfold run at 1. unfold bind at 1. unfold ret at 1.
    set (w1 := {| eventLog := eventLog w; stamps := stamps w;
                  sentryLog := sentryLog w;
                  wire := wire w ++ [{| rq_addr := getBoltAddress node;
                                        rq_query := query; rq_params := ps |}] |}).
    destruct (IH w1) as (promises & Hrun & Hall).
    unfold bind at 1. cbv zeta in Hrun. rewrite Hrun. unfold ret at 1.
    eexists. split.
    + subst w1. simpl. rewrite <- app_assoc. reflexivity.
    + constructor; [|exact Hall].
      intros w0. apply member_branch_effects. reflexivity.
Qed.

End FanOutEffects.

Lemma mapQuery_runs
    (ctx : HalinContext) (arrival : list nat) (query : string) (ps : params)
    (w : world) :
  arrival ≡ₚ seq 0 (length (members ctx)) ->
  exists (p : promise AggregatedResult) (w1 w2 : world),
    mapQueryAcrossCluster ctx arrival query ps w = (Normal p, w1)
    /\ wire w1 = wire w ++ map (requestOf query ps) (members ctx)
    /\ eventLog w1 = eventLog w /\ stamps w1 = stamps w
    /\ sentryLog w1 = sentryLog w
    /\ p w1 = (Resolved (packageClusterOpResults
                           (map (memberResult query ps) (members ctx))), w2)
    /\ quiet w1 w2
    /\ sentryLog w2
       = sentryLog w
         ++ concat (map (fun i => match members ctx !! i with
                                  | Some member => memberReports query ps member
                                  | None => []
                                  end) arrival).
Proof.
  intros Hperm. unfold mapQueryAcrossCluster.
  destruct (member_branches_sent query ps (members ctx) w) as (promises & Hrun & Hall).
  rewrite (bind_Normal _ _ _ _ _ Hrun). unfold ret at 1.
  set (w1 := {| eventLog := eventLog w; stamps := stamps w; sentryLog := sentryLog w;
                wire := wire w ++ map (requestOf query ps) (members ctx) |}).
  assert (Hlen : length promises = length (members ctx))
    by apply (Forall2_length _ _ _ Hall).
  rewrite <- Hlen in Hperm.
  assert (Hvals : Forall2 (fun p v => forall w0, fst (p w0) = Resolved v)
                    promises (map (memberResult query ps) (members ctx))).
  { apply Forall2_fmap_r. eapply Forall2_impl; [exact Hall|].
    intros p member H w0. apply H. }
  eexists _, w1, (driven promises arrival w1).
  split; [reflexivity|]. repeat (split; [reflexivity|]).
  split.
  { unfold then_. rewrite (Promise_all_driven promises _ Hvals arrival w1 Hperm).
    reflexivity. }
  split.
  { apply driven_keeps; [apply quiet_refl | apply quiet_trans |].
    apply Forall_forall. intros p Hin w0.
    apply list_elem_of_lookup in Hin as (i & Hi).
    destruct (Forall2_lookup_l _ _ _ _ _ Hall Hi) as (member & _ & H).
    apply H. }
  rewrite (driven_sentryLog promises (map (memberReports query ps) (members ctx))).
  - f_equal. f_equal. apply map_ext. intros i. rewrite list_lookup_fmap.
    destruct (members ctx !! i); reflexivity.
  - apply Forall2_fmap_r. eapply Forall2_impl; [exact Hall|].
    intros p member H w0. apply H.
Qed.

(** X1: [mapQueryAcrossCluster] puts exactly one statement per member on the
    wire, in the order of the member collection and before any answer is
    looked at; it never touches the event log; and once all branches have
    settled, [sentry] has received the error of every failed member and
    nothing else, in the order in which the branches settled. *)
Theorem mapQueryAcrossCluster_effects
    (ctx : HalinContext) (arrival : list nat) (query : string) (ps : params)
    (w : world) :
  arrival ≡ₚ seq 0 (length (members ctx)) ->
  exists (p : promise AggregatedResult) (w1 w2 : world),
    mapQueryAcrossCluster ctx arrival query ps w = (Normal p, w1)
    /\ wire w1 = wire w ++ map (requestOf query ps) (members ctx)
    /\ eventLog w1 = eventLog w /\ stamps w1 = stamps w
    /\ sentryLog w1 = sentryLog w
    /\ p w1 = (Resolved (packageClusterOpResults
                           (map (memberResult query ps) (members ctx))), w2)
    /\ quiet w1 w2
    /\ sentryLog w2
       = sentryLog w
         ++ concat (map (fun i => match members ctx !! i with
                                  | Some member => memberReports query ps member
                                  | None => []
                                  end) arrival).
Proof.
  intros Hperm.
  destruct (mapQuery_runs ctx arrival query ps w Hperm) as (p & w1 & w2 & H).
  exists p, w1, w2. exact H.
Qed.

Lemma mapQueryAcrossCluster_effects_witness :
  exists (p : promise AggregatedResult) (w1 w2 : world),
    mapQueryAcrossCluster Example.threeMembers [2; 0; 1] "RETURN 1" [] constructor
    = (Normal p, w1)
    /\ map rq_addr (wire w1) = ["a:7687"; "b:7687"; "c:7687"]
    /\ sentryLog w2 = [Report (Error "connection refused")].
Proof.
  destruct (mapQueryAcrossCluster_effects
              Example.threeMembers [2; 0; 1] "RETURN 1" [] constructor)
    as (p & w1 & w2 & Hp & Hwire & _ & _ & _ & _ & _ & Hsentry).
  - apply (bool_decide_unpack _). vm_compute. reflexivity.
  - exists p, w1, w2. split; [exact Hp|]. split.
    + rewrite Hwire. reflexivity.
    + rewrite Hsentry. reflexivity.
Defined.

(** ** The cluster-wide operations *)

Section AdminOperations.

Variable uuid_v4 : nat -> string.
Variable utc_now : nat -> string.
Variable ctx : HalinContext.
Variable arrival : list nat.
Hypothesis all_settle : arrival ≡ₚ seq 0 (length (members ctx)).



(** X3: without a truthy [username], [deleteUser] throws before anything is
    sent or logged. *)
Theorem deleteUser_guard (fields : list (string * jsval)) (w : world) :
  truthy (default JUndefined (assoc "username" fields)) = false ->
  deleteUser uuid_v4 utc_now ctx arrival (JObj fields) w
  = (Throw (Error "Call with an object containing keys username"), w).
Proof.
  intros Hu. unfold deleteUser, bind, lift, getProp, throw. simpl.
  rewrite Hu. reflexivity.
Qed.


(** X5: [addRole] and [deleteRole] throw on a missing or empty role before
    anything is sent or logged. *)
Theorem role_operations_guard (role : jsval) (w : world) :
  truthy role = false ->
  addRole uuid_v4 utc_now ctx arrival role w = (Throw (Error "Must provide role"), w)
  /\ deleteRole uuid_v4 utc_now ctx arrival role w
     = (Throw (Error "Must provide role"), w).
Proof.
  intros Hr. unfold addRole, deleteRole, throw. rewrite Hr. auto.
Qed.



End AdminOperations.



Lemma deleteUser_guard_witness :
  deleteUser Example.uuid_v4 Example.utc_now Example.twoMembers [0; 1]
    (JObj [("username", JStr EmptyString)]) constructor
  = (Throw (Error "Call with an object containing keys username"), constructor).
Proof.
  apply (deleteUser_guard Example.uuid_v4 Example.utc_now Example.twoMembers [0; 1]
           [("username", JStr EmptyString)] constructor).
  reflexivity.
Defined.


Lemma role_operations_guard_witness :
  addRole Example.uuid_v4 Example.utc_now Example.twoMembers [0; 1] JUndefined constructor
  = (Throw (Error "Must provide role"), constructor)
  /\ deleteRole Example.uuid_v4 Example.utc_now Example.twoMembers [0; 1] JUndefined
       constructor
     = (Throw (Error "Must provide role"), constructor).
Proof.
  apply (role_operations_guard Example.uuid_v4 Example.utc_now Example.twoMembers
           [0; 1] JUndefined constructor).
  reflexivity.
Defined.



(** X8: what [addUser] does before it sends anything depends on [password]
    alone: a [TypeError] on [undefined] and [null], the guard's error when
    [password] is missing or falsy, a promise otherwise; [username] is never
    looked at. *)
Theorem addUser_guard_by_password
    (uuid_v4 utc_now : nat -> string) (ctx : HalinContext) (arrival : list nat)
    (user : jsval) (w : world) :
  match user with
  | JUndefined | JNull =>
      exists msg, addUser uuid_v4 utc_now ctx arrival user w = (Throw (TypeError msg), w)
  | _ =>
      let password := match getProp user "password" with
                      | Normal v => v
                      | Throw _ => JUndefined
                      end in
      if truthy password
      then exists (p : promise AggregatedResult) (w1 : world),
             addUser uuid_v4 utc_now ctx arrival user w = (Normal p, w1)
      else addUser uuid_v4 utc_now ctx arrival user w
           = (Throw (Error "Call with object containing keys username, password"), w)
  end.
Proof.
  destruct user as [| |b|n|s|l|fields]; simpl.
  - eexists; reflexivity.
  - eexists; reflexivity.
  - unfold addUser, bind, lift, getProp, throw. simpl. now rewrite orb_true_r.
  - unfold addUser, bind, lift, getProp, throw. simpl. now rewrite orb_true_r.
  - unfold addUser, bind, lift, getProp, throw. simpl. now rewrite orb_true_r.
  - reflexivity.
  - destruct (truthy (default JUndefined (assoc "password" fields))) eqn:Hpw.
    + now apply addUser_with_password_returns.
    + now apply addUser_without_password_throws.
Qed.

(** ** More on the event log *)

Lemma last_tail_app {A : Type} (l : list A) (x : A) :
  l <> [] -> last (tail (l ++ [x])) = Some x.
Proof.
  destruct l as [|y l]; [contradiction|]. intros _. simpl. apply last_snoc.
Qed.

(** X9: a valid event is appended at the tail of the log: the snapshot after
    the call is a suffix of the old snapshot followed by the new entry, ends
    with the new entry, and is exactly the old snapshot followed by the new
    entry while the log is not full.  The entry keeps the event's [type] and
    [message]; a falsy [payload] is stored as [null].  Nothing is sent or
    reported. *)
Theorem addEvent_appends_at_tail
    (uuid_v4 utc_now : nat -> string) (event : Event) (w : world) :
  valid_event event ->
  1 <= Ring.capacity (eventLog w) ->
  let entry := stamped uuid_v4 utc_now (stamps w) event in
  exists w',
    addEvent uuid_v4 utc_now event w = (Normal tt, w')
    /\ getEventLog w' `suffix_of` getEventLog w ++ [entry]
    /\ last (getEventLog w') = Some entry
    /\ (length (getEventLog w) < Ring.capacity (eventLog w) ->
        getEventLog w' = getEventLog w ++ [entry])
    /\ e_type entry = type event /\ e_message entry = message event
    /\ (truthy (payload event) = false -> e_payload entry = JNull)
    /\ (truthy (payload event) = true -> e_payload entry = payload event)
    /\ sentryLog w' = sentryLog w /\ wire w' = wire w.
Proof.
  intros Hvalid Hcap entry. eexists. split; [apply addEvent_valid, Hvalid|].
  unfold getEventLog, Ring.toArray, Ring.push. simpl. fold entry.
  rewrite length_app. simpl.
  destruct (Nat.ltb_spec (Ring.capacity (eventLog w))
              (length (Ring.items (eventLog w)) + 1)) as [Hfull | Hroom].
  - split; [apply (suffix_drop _ 1)|]. split.
    + apply last_tail_app. intros Hnil. rewrite Hnil in Hfull. simpl in Hfull. lia.
    + split; [lia|]. unfold entry, stamped, or_else. simpl.
      repeat split; intros ->; reflexivity.
  - split; [reflexivity|]. split; [apply last_snoc|].
    split; [reflexivity|]. unfold entry, stamped, or_else. simpl.
    repeat split; intros ->; reflexivity.
Qed.

Lemma addEvent_appends_at_tail_witness :
  exists w',
    addEvent Example.uuid_v4 Example.utc_now
      {| type := JStr "note"; message := JStr "hello"; payload := JNum 0 |} constructor
    = (Normal tt, w')
    /\ map e_payload (getEventLog w') = [JNull].
Proof.
  destruct (addEvent_appends_at_tail Example.uuid_v4 Example.utc_now
              {| type := JStr "note"; message := JStr "hello"; payload := JNum 0 |}
              constructor)
    as (w' & Hrun & _ & _ & Hroom & _ & _ & Hnull & _).
  - split; reflexivity.
  - unfold constructor, MAX_EVENTS. simpl. lia.
  - exists w'. split; [exact Hrun|]. rewrite Hroom.
    + reflexivity.
    + unfold constructor, MAX_EVENTS. simpl. lia.
Defined.

Lemma entries_ids (uuid_v4 utc_now : nat -> string) (events : list Event) :
  forall n : nat,
    map e_id (entries uuid_v4 utc_now n events) = map uuid_v4 (seq n (length events)).
Proof.
  induction events as [|event rest IH]; intros n; simpl; [reflexivity|].
  now rewrite IH.
Qed.

(** X10: if the id generator never repeats itself, the entries in the log of
    a manager that was only fed valid events carry pairwise different ids. *)
Theorem eventLog_ids_distinct
    (uuid_v4 utc_now : nat -> string) (events : list Event) :
  (forall i j, uuid_v4 i = uuid_v4 j -> i = j) ->
  Forall valid_event events ->
  exists w',
    addEvents uuid_v4 utc_now events constructor = (Normal tt, w')
    /\ NoDup (map e_id (getEventLog w')).
Proof.
  intros Hinj Hvalid.
  destruct (addEvents_history uuid_v4 utc_now events constructor [] Hvalid eq_refl)
    as (w' & Hrun & _ & _ & _ & _ & Hit).
  exists w'. split; [exact Hrun|].
  unfold getEventLog, Ring.toArray. rewrite Hit. simpl.
  change (map e_id) with (fmap (M := list) e_id). rewrite fmap_drop.
  eapply sublist_NoDup; [|apply sublist_drop].
  change (fmap e_id) with (map e_id). rewrite entries_ids.
  apply (@NoDup_fmap_2 _ _ uuid_v4 Hinj), NoDup_seq.
Qed.

Lemma eventLog_ids_distinct_witness :
  exists w',
    addEvents Example.uuid_v4 Example.utc_now Example.events201 constructor
    = (Normal tt, w')
    /\ NoDup (map e_id (getEventLog w')).
Proof.
  apply (eventLog_ids_distinct Example.uuid_v4 Example.utc_now Example.events201).
  - intros i j Heq. unfold Example.uuid_v4 in Heq. simpl in Heq.
    injection Heq as Heq. now apply pretty_nat_inj in Heq.
  - apply Forall_replicate. split; reflexivity.
Defined.

(** ** More on the aggregation rule *)

(** X11: aggregating two batches of member results at once succeeds exactly
    when aggregating each batch succeeds, and keeps the results in order. *)
Theorem packageClusterOpResults_app (rs1 rs2 : list ClusterOpResult) :
  agg_success (packageClusterOpResults (rs1 ++ rs2))
  = agg_success (packageClusterOpResults rs1)
    && agg_success (packageClusterOpResults rs2)
  /\ agg_results (packageClusterOpResults (rs1 ++ rs2))
     = agg_results (packageClusterOpResults rs1)
       ++ agg_results (packageClusterOpResults rs2).
Proof.
  split; [|reflexivity]. unfold packageClusterOpResults. simpl.
  apply eq_true_iff_eq.
  rewrite andb_true_iff, !Nat.eqb_eq, !filter_length_all, Forall_app. tauto.
Qed.

(** ** Chains of [then] and [catch] *)

Lemma then__Resolved {A B : Type} (p : promise A) (f : A -> sync B)
    (w w1 w2 : world) (a : A) (b : B) :
  p w = (Resolved a, w1) -> f a w1 = (Normal b, w2) ->
  then_ p f w = (Resolved b, w2).
Proof. intros Hp Hf. unfold then_. now rewrite Hp, Hf. Qed.

Lemma then__Rejected {A B : Type} (p : promise A) (f : A -> sync B)
    (w w1 : world) (e : jserr) :
  p w = (Rejected e, w1) -> then_ p f w = (Rejected e, w1).
Proof. intros Hp. unfold then_. now rewrite Hp. Qed.

Lemma then__Throw {A B : Type} (p : promise A) (f : A -> sync B)
    (w w1 w2 : world) (a : A) (e : jserr) :
  p w = (Resolved a, w1) -> f a w1 = (Throw e, w2) ->
  then_ p f w = (Rejected e, w2).
Proof. intros Hp Hf. unfold then_. now rewrite Hp, Hf. Qed.

Lemma then_p_Resolved {A B : Type} (p : promise A) (f : A -> sync (promise B))
    (w w1 w2 : world) (a : A) (q : promise B) :
  p w = (Resolved a, w1) -> f a w1 = (Normal q, w2) ->
  then_p p f w = q w2.
Proof. intros Hp Hf. unfold then_p. now rewrite Hp, Hf. Qed.

Lemma then_p_Rejected {A B : Type} (p : promise A) (f : A -> sync (promise B))
    (w w1 : world) (e : jserr) :
  p w = (Rejected e, w1) -> then_p p f w = (Rejected e, w1).
Proof. intros Hp. unfold then_p. now rewrite Hp. Qed.

Lemma catch__Resolved {A : Type} (p : promise A) (h : jserr -> sync A)
    (w w1 : world) (a : A) :
  p w = (Resolved a, w1) -> catch_ p h w = (Resolved a, w1).
Proof. intros Hp. unfold catch_. now rewrite Hp. Qed.

Lemma catch__Rejected {A : Type} (p : promise A) (h : jserr -> sync A)
    (w w1 w2 : world) (e : jserr) (a : A) :
  p w = (Rejected e, w1) -> h e w1 = (Normal a, w2) ->
  catch_ p h w = (Resolved a, w2).
Proof. intros Hp Hh. unfold catch_. now rewrite Hp, Hh. Qed.

(** ** [Promise.all] over answers that may be errors *)

Section PromiseAllAnswers.

Context {A : Type}.
Variable os : list (jserr + A).

Lemma settle_each_answered (order : list nat) :
  forall (values : list (option A)) (rejection : option jserr) (w : world),
    exists values',
      settle_each (map answered os) order values rejection w
      = (values',
         match rejection with
         | Some e => Some e
         | None => firstError os order
         end, w).
Proof.
  induction order as [|i rest IH]; intros values rejection w.
  - exists values. simpl. destruct rejection; reflexivity.
  - cbn [settle_each].
    assert (Hlk : (map answered os : list (promise A)) !! i = answered <$> os !! i)
      by apply list_lookup_fmap.
    unfold promise in *. rewrite Hlk. unfold firstError. cbn [omap list_omap].
    destruct (os !! i) as [[e | a]|] eqn:Hi; simpl.
    + destruct (IH values (Some (default e rejection)) w) as (values' & ->).
      exists values'. destruct rejection; reflexivity.
    + destruct (IH (<[i := Some a]> values) rejection w) as (values' & ->).
      exists values'. reflexivity.
    + destruct (IH values rejection w) as (values' & ->).
      exists values'. reflexivity.
Qed.

Lemma firstError_None (order : list nat) :
  order ≡ₚ seq 0 (length os) ->
  firstError os order = None ->
  os = inr <$> rights os.
Proof.
  intros Hperm Hnone.
  assert (Hall : forall i e, os !! i = Some (inl e) -> False).
  { intros i e Hi. unfold firstError in Hnone.
    apply head_None in Hnone.
    assert (Hin : i ∈ order).
    { rewrite Hperm. apply elem_of_seq. apply lookup_lt_Some in Hi. lia. }
    assert (He : e ∈ omap (fun i => match os !! i with
                                    | Some (inl e) => Some e
                                    | _ => None
                                    end) order).
    { apply list_elem_of_omap. exists i. split; [exact Hin|]. now rewrite Hi. }
    rewrite Hnone in He. inversion He. }
  clear Hperm Hnone. induction os as [|o rest IH]; [reflexivity|].
  destruct o as [e | a].
  - exfalso. apply (Hall 0 e). reflexivity.
  - unfold rights. simpl. f_equal. apply IH.
    intros i e Hi. apply (Hall (S i) e). exact Hi.
Qed.

(** The whole rejects with the first error that arrives, and fulfils with
    all the values when there is none; the state is untouched. *)
Lemma Promise_all_answered (order : list nat) (w : world) :
  order ≡ₚ seq 0 (length os) ->
  Promise_all (map answered os) order w
  = (match firstError os order with
     | Some e => Rejected e
     | None => Resolved (rights os)
     end, w).
Proof.
  intros Hperm. destruct (firstError os order) as [e|] eqn:Hfirst.
  - unfold Promise_all.
    destruct (settle_each_answered order
                (replicate (length (map answered os)) None) None w) as (values' & ->).
    now rewrite Hfirst.
  - pose proof (firstError_None order Hperm Hfirst) as Hos.
    assert (Hful : Forall2 (fun p v => forall w0, fst (p w0) = Resolved v)
                     (map answered os) (rights os)).
    { rewrite Hos at 1. change (map answered (inr <$> rights os))
        with (answered <$> (inr <$> rights os)).
      rewrite <- list_fmap_compose. apply Forall2_fmap_l, Forall_Forall2_diag.
      apply Forall_forall. intros a _ w0. reflexivity. }
    rewrite (Promise_all_driven _ _ Hful order w)
      by (now rewrite length_map).
    f_equal. symmetry.
    apply (driven_keeps (map answered os) (fun w1 w2 => w1 = w2)); try congruence.
    apply Forall_forall. intros p Hp w0.
    apply list_elem_of_fmap in Hp as (o & -> & _). reflexivity.
Qed.

End PromiseAllAnswers.

(** ** Applying the role changes on one member *)

Lemma firstError_in {A : Type} (os : list (jserr + A)) (order : list nat) (e : jserr) :
  firstError os order = Some e -> inl e ∈ os.
Proof.
  unfold firstError. intros Hhead.
  assert (Hin : e ∈ omap (fun i => match os !! i with
                                   | Some (inl e) => Some e
                                   | _ => None
                                   end) order).
  { destruct (omap _ order) as [|x l]; [discriminate|].
    injection Hhead as ->. left. }
  apply list_elem_of_omap in Hin as (i & _ & Hi).
  destruct (os !! i) as [[e' | a]|] eqn:Hlk; try discriminate.
  injection Hi as ->. apply list_elem_of_lookup. now exists i.
Qed.

Lemma role_calls (f : string -> sync (promise (list row))) (label query : string)
    (username : jsval) (node : Node) :
  (forall role w,
      f role w
      = (Normal (answered (respond node query (roleParams username role))),
         {| eventLog := eventLog w; stamps := stamps w;
            sentryLog := sentryLog w ++ [Info label];
            wire := wire w ++ [requestOf query (roleParams username role) node] |})) ->
  forall (roles : list string) (w : world),
    mapS f roles w
    = (Normal (map (fun role => answered (respond node query (roleParams username role)))
                   roles),
       {| eventLog := eventLog w; stamps := stamps w;
          sentryLog := sentryLog w ++ replicate (length roles) (Info label);
          wire := wire w
                  ++ map (fun role => requestOf query (roleParams username role) node)
                         roles |}).
Proof.
  intros Hf roles. induction roles as [|role rest IH]; intros w; simpl.
  - rewrite !app_nil_r. now destruct w.
  - rewrite (bind_Normal _ _ _ _ _ (Hf role w)).
    rewrite (bind_Normal _ _ _ _ _ (IH _)). unfold ret. simpl.
    now rewrite <- !app_assoc.
Qed.

Lemma applyChanges_settles
    (username : jsval) (d : RoleChanges) (member : Node) (w : world) :
  let os := roleAnswers username d member in
  let order := replyOrder member (length os) in
  order ≡ₚ seq 0 (length os) ->
  exists (p : promise ClusterOpResult) (w1 : world) (r : ClusterOpResult) (w2 : world),
    applyChanges username d member w = (Normal p, w1)
    /\ wire w1 = wire w ++ roleRequests username d member
    /\ eventLog w1 = eventLog w /\ stamps w1 = stamps w
    /\ p w1 = (Resolved r, w2)
    /\ quiet w1 w2
    /\ node r = member
    /\ (success r = true <-> Forall (fun o => exists rows, o = inr rows) os)
    /\ match firstError os order with
       | None =>
           err r = None /\ (exists text, results r = PText text)
           /\ sentryLog w2 = sentryLog w1
       | Some e =>
           success r = false /\ err r = Some e
           /\ sentryLog w2 = sentryLog w1 ++ [Report e; Report e]
       end.
Proof.
  intros os order Hperm. unfold applyChanges.
  rewrite (bind_Normal _ _ _ _ _
             (role_calls (fun role => addNodeRole member username role)
                "ADD ROLE" GRANT username member (fun _ _ => eq_refl) (toAdd d) w)).
  rewrite (bind_Normal _ _ _ _ _
             (role_calls (fun role => removeNodeRole member username role)
                "REMOVE ROLE" REVOKE username member (fun _ _ => eq_refl)
                (toDelete d) _)).
  cbv zeta. unfold ret at 1. cbn [eventLog stamps sentryLog wire].
  set (w1 := {| eventLog := eventLog w; stamps := stamps w;
                sentryLog := _; wire := _ |}).
  assert (Hproms :
            map (fun role => answered (respond member GRANT (roleParams username role)))
                (toAdd d)
            ++ map (fun role => answered (respond member REVOKE (roleParams username role)))
                   (toDelete d)
            = map answered os).
  { unfold os, roleAnswers. now rewrite map_app, !map_map. }
  rewrite Hproms. rewrite length_map. fold order.
  assert (Hall : Promise_all (map answered os) order w1
                 = (match firstError os order with
                    | Some e => Rejected e
                    | None => Resolved (rights os)
                    end, w1))
    by (apply Promise_all_answered, Hperm).
  assert (Hiff : firstError os order = None
                 <-> Forall (fun o => exists rows, o = inr rows) os).
  { split.
    - intros Hnone. rewrite (firstError_None os order Hperm Hnone).
      apply Forall_fmap, Forall_forall. intros rows _. now exists rows.
    - intros Hok. destruct (firstError os order) as [e|] eqn:Hfirst; [|reflexivity].
      apply firstError_in in Hfirst.
      apply (proj1 (Forall_forall _ _) Hok) in Hfirst as (rows & Hrows).
      discriminate. }
  destruct (firstError os order) as [e|] eqn:Hfirst.
  - eexists _, w1, _, _. split; [reflexivity|].
    split; [subst w1; simpl; unfold roleRequests; now rewrite app_assoc|].
    split; [reflexivity|]. split; [reflexivity|].
    split.
    { eapply catch__Rejected; [eapply then__Rejected; exact Hall|].
      unfold bind, sentry_reportError, clusterOpFailure, bind, ret. reflexivity. }
    simpl. split; [repeat split|]. split; [reflexivity|].
    split; [|now rewrite <- app_assoc].
    split; [discriminate|]. intros Hok. apply Hiff in Hok. discriminate.
  - eexists _, w1, _, _. split; [reflexivity|].
    split; [subst w1; simpl; unfold roleRequests; now rewrite app_assoc|].
    split; [reflexivity|]. split; [reflexivity|].
    split.
    { eapply catch__Resolved, then__Resolved; [exact Hall | reflexivity]. }
    simpl. split; [repeat split|]. split; [reflexivity|].
    split; [split; [intros _; now apply Hiff | reflexivity]|].
    split; [reflexivity|]. split; [eexists; reflexivity | reflexivity].
Qed.

(** X12: [applyChanges] sends one grant per role to add and then one revoke
    per role to delete, all before looking at any answer, and appends
    nothing to the event log.  Its promise never rejects: it fulfils with a
    success envelope carrying a summary text exactly when every statement
    succeeded, and otherwise with a failure envelope carrying the error that
    arrived first, which is handed to [sentry] twice. *)
Theorem applyChanges_outcome
    (username : jsval) (d : RoleChanges) (member : Node) (w : world) :
  let os := roleAnswers username d member in
  let order := replyOrder member (length os) in
  order ≡ₚ seq 0 (length os) ->
  exists (p : promise ClusterOpResult) (w1 : world) (r : ClusterOpResult) (w2 : world),
    applyChanges username d member w = (Normal p, w1)
    /\ wire w1 = wire w ++ roleRequests username d member
    /\ eventLog w1 = eventLog w /\ stamps w1 = stamps w
    /\ p w1 = (Resolved r, w2)
    /\ quiet w1 w2
    /\ node r = member
    /\ (success r = true <-> Forall (fun o => exists rows, o = inr rows) os)
    /\ match firstError os order with
       | None =>
           err r = None /\ (exists text, results r = PText text)
           /\ sentryLog w2 = sentryLog w1
       | Some e =>
           success r = false /\ err r = Some e
           /\ sentryLog w2 = sentryLog w1 ++ [Report e; Report e]
       end.
Proof.
  intros os order Hperm.
  destruct (applyChanges_settles username d member w Hperm)
    as (p & w1 & r & w2 & H).
  exists p, w1, r, w2. exact H.
Qed.

Lemma applyChanges_outcome_witness :
  exists (p : promise ClusterOpResult) (w1 : world) (r : ClusterOpResult) (w2 : world),
    applyChanges (JStr "alice")
      {| toAdd := ["reader"; "admin"]; toDelete := ["old"]; toPreserve := [] |}
      (Example.memberWithRoles "a:7687" ["old"] ["admin"]) constructor
    = (Normal p, w1)
    /\ p w1 = (Resolved r, w2)
    /\ success r = false
    /\ err r = Some (Error "Role does not exist: admin")
    /\ map rq_query (wire w1) = [GRANT; GRANT; REVOKE].
Proof.
  destruct (applyChanges_outcome (JStr "alice")
              {| toAdd := ["reader"; "admin"]; toDelete := ["old"]; toPreserve := [] |}
              (Example.memberWithRoles "a:7687" ["old"] ["admin"]) constructor)
    as (p & w1 & r & w2 & Hp & Hwire & _ & _ & Hs & _ & _ & _ & Hfirst).
  - reflexivity.
  - exists p, w1, r, w2. split; [exact Hp|]. split; [exact Hs|].
    vm_compute in Hfirst. destruct Hfirst as (Hfail & Herr & _).
    split; [exact Hfail|]. split; [exact Herr|]. rewrite Hwire. reflexivity.
Defined.

(** ** Counting what is appended to the event log *)

Lemma appended_0 (P : EventLogEntry -> Prop) (w w' : world) :
  eventLog w' = eventLog w -> stamps w' = stamps w -> appended P 0 w w'.
Proof.
  intros Hlog Hst. unfold appended. rewrite Hlog, Hst. split; [lia|].
  split; [reflexivity|]. exists []. rewrite app_nil_r. auto.
Qed.

Lemma appended_trans (P : EventLogEntry -> Prop) (a b : nat) (w1 w2 w3 : world) :
  appended P a w1 w2 -> appended P b w2 w3 -> appended P (a + b) w1 w3.
Proof.
  intros (Hs1 & Hc1 & new1 & Hl1 & HP1 & Hi1) (Hs2 & Hc2 & new2 & Hl2 & HP2 & Hi2).
  split; [lia|]. split; [congruence|].
  exists (new1 ++ new2). split; [rewrite length_app; lia|].
  split; [now apply Forall_app|].
  intros Hroom. rewrite Hi2, Hi1, <- app_assoc; [reflexivity | lia |].
  rewrite Hc1, Hi1, length_app by lia. lia.
Qed.

Lemma appended_addEvent (uuid_v4 utc_now : nat -> string)
    (P : EventLogEntry -> Prop) (event : Event) (w : world) :
  valid_event event ->
  P (stamped uuid_v4 utc_now (stamps w) event) ->
  exists w', addEvent uuid_v4 utc_now event w = (Normal tt, w')
             /\ appended P 1 w w'
             /\ sentryLog w' = sentryLog w /\ wire w' = wire w.
Proof.
  intros Hvalid HP. eexists. split; [apply addEvent_valid, Hvalid|].
  split; [|split; reflexivity].
  split; [simpl; lia|]. split; [reflexivity|].
  exists [stamped uuid_v4 utc_now (stamps w) event].
  split; [reflexivity|]. split; [now constructor|].
  simpl. intros Hroom. rewrite length_app. simpl.
  destruct (Nat.ltb_spec (Ring.capacity (eventLog w))
              (length (Ring.items (eventLog w)) + 1)); [lia | reflexivity].
Qed.

Lemma sum_list_with_fmap_S (f : nat -> nat) (l : list nat) :
  sum_list_with f (S <$> l) = sum_list_with (fun i => f (S i)) l.
Proof. induction l as [|x l IH]; simpl; [reflexivity | f_equal; exact IH]. Qed.

Lemma sum_list_with_lookup (ks : list nat) :
  sum_list_with (fun i => default 0 (ks !! i)) (seq 0 (length ks)) = sum_list ks.
Proof.
  induction ks as [|k ks IH]; [reflexivity|].
  cbn [length seq sum_list_with]. rewrite <- fmap_S_seq.
  rewrite (sum_list_with_fmap_S (fun i => default 0 ((k :: ks) !! i))).
  simpl. now rewrite IH.
Qed.

Lemma driven_appended {A : Type} (P : EventLogEntry -> Prop)
    (promises : list (promise A)) (ks : list nat) :
  Forall2 (fun p k => forall w, appended P k w (snd (p w))) promises ks ->
  forall (order : list nat) (w : world),
    appended P (sum_list_with (fun i => default 0 (ks !! i)) order) w
      (driven promises order w).
Proof.
  intros Hall order. induction order as [|i rest IH]; intros w.
  - now apply appended_0.
  - rewrite driven_cons. cbn [sum_list_with].
    destruct (promises !! i) as [p|] eqn:Hp.
    + destruct (Forall2_lookup_l _ _ _ _ _ Hall Hp) as (k & Hk & Hstep).
      rewrite Hk. simpl. eapply appended_trans; [apply Hstep | apply IH].
    + assert (ks !! i = None) as ->.
      { apply lookup_ge_None. rewrite <- (Forall2_length _ _ _ Hall).
        now apply lookup_ge_None. }
      simpl. apply IH.
Qed.

Lemma sum_list_indicator {A : Type} (ok : A -> bool) (l : list A) :
  sum_list (map (fun x => if ok x then 1 else 0) l) = length (List.filter ok l).
Proof.
  induction l as [|x l IH]; simpl; [reflexivity|].
  destruct (ok x); simpl; now rewrite IH.
Qed.

(** ** The role reconciler *)

Lemma mapS_members {B : Type} (f : Node -> sync B) (P : Node -> B -> Prop)
    (req : Node -> Request) (nodes : list Node) :
  (forall member, member ∈ nodes ->
     forall w, exists b,
       f member w
       = (Normal b, {| eventLog := eventLog w; stamps := stamps w;
                       sentryLog := sentryLog w; wire := wire w ++ [req member] |})
       /\ P member b) ->
  forall w, exists bs,
    mapS f nodes w
    = (Normal bs, {| eventLog := eventLog w; stamps := stamps w;
                     sentryLog := sentryLog w; wire := wire w ++ map req nodes |})
    /\ Forall2 P nodes bs.
Proof.
  induction nodes as [|member rest IH]; intros Hf w; simpl.
  - exists []. rewrite app_nil_r. destruct w. split; [reflexivity | constructor].
  - destruct (Hf member (list_elem_of_here _ _) w) as (b & Hb & HP).
    rewrite (bind_Normal _ _ _ _ _ Hb).
    destruct (IH (fun m Hm => Hf m (list_elem_of_further _ _ _ Hm))
                 {| eventLog := eventLog w; stamps := stamps w;
                    sentryLog := sentryLog w; wire := wire w ++ [req member] |})
      as (bs & Hbs & Hall).
    rewrite (bind_Normal _ _ _ _ _ Hbs). unfold ret. simpl.
    exists (b :: bs). rewrite <- app_assoc. split; [reflexivity|].
    now constructor.
Qed.

Section Reconciler.

Variable uuid_v4 : nat -> string.
Variable utc_now : nat -> string.
Variable ROLES : string.
Variable username : jsval.
Variable rs : list string.

(** What every [roleassoc] entry of a call carries. *)
Let roleassoc (e : EventLogEntry) : Prop :=
  e_type e = JStr "roleassoc"
  /\ e_payload e = JObj [("username", username); ("roles", JArr rs)].

Lemma gatherRoles_settles (member : Node) (w : world) :
  exists g : promise (list string),
    gatherRoles ROLES username member w
    = (Normal g, {| eventLog := eventLog w; stamps := stamps w;
                    sentryLog := sentryLog w;
                    wire := wire w ++ [requestOf ROLES [("username", username)] member] |})
    /\ forall w0,
         g w0 = match gathered ROLES username member with
                | inl e => (Rejected e, w0)
                | inr names =>
                    (Resolved names,
                     {| eventLog := eventLog w0; stamps := stamps w0;
                        sentryLog := sentryLog w0 ++ [Fine "gather roles made"];
                        wire := wire w0 |})
                end.
Proof.
  eexists. split; [reflexivity|]. intros w0.
  unfold gathered, then_, unpackResults.
  destruct (respond member ROLES [("username", username)]) as [e | rows]; simpl;
    [reflexivity|].
  match goal with
  | |- context [forallb ?f rows] => destruct (forallb f rows); reflexivity
  end.
Qed.

Lemma member_branch_settles (member : Node) (g : promise (list string)) :
  (forall n, replyOrder member n ≡ₚ seq 0 n) ->
  (forall w0,
      g w0 = match gathered ROLES username member with
             | inl e => (Rejected e, w0)
             | inr names =>
                 (Resolved names,
                  {| eventLog := eventLog w0; stamps := stamps w0;
                     sentryLog := sentryLog w0 ++ [Fine "gather roles made"];
                     wire := wire w0 |})
             end) ->
  forall w0, exists w',
    catch_
      (then_
         (then_
            (then_p
               (then_ g (fun rolesHere => determineDifferences rs rolesHere member))
               (fun roleChanges => applyChanges username roleChanges member))
            (fun _ =>
               addEvent uuid_v4 utc_now
                 {| type := JStr "roleassoc";
                    message := JStr ("Associated " +:+ quoted (toString username)
                                     +:+ " to roles "
                                     +:+ join ", " (map quoted rs));
                    payload := JObj [("username", username); ("roles", JArr rs)] |}))
         (fun _ => ret (clusterOpSuccess member PUndefined)))
      (fun err => clusterOpFailure member err) w0
    = (Resolved (roleEntry ROLES username member), w')
    /\ appended roleassoc (if gatherOk ROLES username member then 1 else 0) w0 w'
    /\ wire w' = wire w0 ++ memberStatements ROLES username rs member.
Proof.
  intros Horder Hg w0. specialize (Hg w0).
  unfold roleEntry, gatherOk, memberStatements.
  destruct (gathered ROLES username member) as [e | names].
  - eexists. split; [|split].
    + eapply catch__Rejected; [|reflexivity].
      eapply then__Rejected, then__Rejected, then_p_Rejected, then__Rejected.
      exact Hg.
    + now apply appended_0.
    + simpl. now rewrite app_nil_r.
  - set (wA := {| eventLog := eventLog w0; stamps := stamps w0;
                  sentryLog := sentryLog w0 ++ [Fine "gather roles made"];
                  wire := wire w0 |}) in Hg.
    set (d := roleChangesOf rs names member).
    assert (Hdiff : exists wB,
               determineDifferences rs names member wA = (Normal d, wB)
               /\ eventLog wB = eventLog w0 /\ stamps wB = stamps w0
               /\ wire wB = wire w0).
    { eexists. split; [|split; [|split]].
      - unfold determineDifferences, bind, sentry_fine, ret.
        cbv beta iota zeta. reflexivity.
      - reflexivity.
      - reflexivity.
      - reflexivity. }
    destruct Hdiff as (wB & Hd & HlogB & HstB & HwireB).
    destruct (applyChanges_settles username d member wB (Horder _))
      as (p & w1 & r & w2 & Hp & Hwire1 & Hlog1 & Hst1 & Hs & (Hq1 & Hq2 & Hq3) & _).
    destruct (appended_addEvent uuid_v4 utc_now roleassoc
                {| type := JStr "roleassoc";
                   message := JStr ("Associated " +:+ quoted (toString username)
                                    +:+ " to roles "
                                    +:+ join ", " (map quoted rs));
                   payload := JObj [("username", username); ("roles", JArr rs)] |}
                w2) as (w3 & Hev & Happ & _ & Hwire3).
    { split; reflexivity. }
    { split; reflexivity. }
    exists w3. split; [|split].
    + eapply catch__Resolved, then__Resolved; [|reflexivity].
      eapply then__Resolved; [|exact Hev].
      erewrite then_p_Resolved; [exact Hs | | exact Hp].
      eapply then__Resolved; [exact Hg | exact Hd].
    + destruct Happ as (Hst3 & Hcap3 & new & Hlen & HP & Hitems).
      assert (Hlog : eventLog w2 = eventLog w0) by congruence.
      assert (Hst : stamps w2 = stamps w0) by congruence.
      rewrite Hlog, Hst in *. split; [exact Hst3|]. split; [exact Hcap3|].
      exists new. auto.
    + congruence.
Qed.

Lemma associateUserToRoles_settles
    (ctx : HalinContext) (arrival : list nat) (fields : list (string * jsval))
    (w : world) :
  assoc "username" fields = Some username ->
  truthy username = true ->
  arrival ≡ₚ seq 0 (length (members ctx)) ->
  (forall member n, member ∈ members ctx -> replyOrder member n ≡ₚ seq 0 n) ->
  exists (p : promise AggregatedResult) (w1 w2 : world),
    associateUserToRoles uuid_v4 utc_now ROLES ctx arrival (JObj fields) (JArr rs) w
    = (Normal p, w1)
    /\ wire w1
       = wire w ++ map (requestOf ROLES [("username", username)]) (members ctx)
    /\ eventLog w1 = eventLog w /\ stamps w1 = stamps w
    /\ p w1 = (Resolved (packageClusterOpResults
                           (map (roleEntry ROLES username) (members ctx))), w2)
    /\ appended roleassoc
         (length (List.filter (gatherOk ROLES username) (members ctx))) w1 w2
    /\ wire w2
       = wire w1
         ++ concat (map (fun i => match members ctx !! i with
                                  | Some member =>
                                      memberStatements ROLES username rs member
                                  | None => []
                                  end) arrival).
Proof.
  intros Hfield Htruthy Hperm Horders.
  unfold associateUserToRoles.
  unfold bind at 1. unfold sentry_info at 1. cbn [isArray isObject negb].
  unfold lift, getProp. unfold bind at 1. rewrite Hfield. cbn [default from_option]. unfold id.
  rewrite Htruthy. cbn [negb arrayElements].
  set (w0 := {| eventLog := eventLog w; stamps := stamps w;
                sentryLog := _; wire := wire w |}).
  match goal with
  | |- context [mapS ?f (members ctx)] =>
      destruct (mapS_members f
                  (fun member b =>
                     forall wx, exists w',
                       b wx = (Resolved (roleEntry ROLES username member), w')
                       /\ appended roleassoc
                            (if gatherOk ROLES username member then 1 else 0) wx w'
                       /\ wire w'
                          = wire wx ++ memberStatements ROLES username rs member)
                  (requestOf ROLES [("username", username)])
                  (members ctx)) with (w := w0) as (promises & Hrun & Hall)
  end.
  { intros member Hin wx.
    destruct (gatherRoles_settles member wx) as (g & Hg & Hsettle).
    rewrite (bind_Normal _ _ _ _ _ Hg). unfold ret. eexists. split; [reflexivity|].
    cbv zeta. apply member_branch_settles; [|exact Hsettle].
    intros n. now apply Horders. }
  rewrite (bind_Normal _ _ _ _ _ Hrun). unfold ret at 1.
  assert (Hlen : length promises = length (members ctx))
    by (symmetry; apply (Forall2_length _ _ _ Hall)).
  rewrite <- Hlen in Hperm.
  assert (Hvals : Forall2 (fun p v => forall wx, fst (p wx) = Resolved v)
                    promises (map (roleEntry ROLES username) (members ctx))).
  { apply Forall2_fmap_r, Forall2_flip. eapply Forall2_impl; [exact Hall|].
    intros member b H wx. destruct (H wx) as (w' & -> & _). reflexivity. }
  assert (Hks : Forall2 (fun p k => forall wx, appended roleassoc k wx (snd (p wx)))
                  promises
                  (map (fun member => if gatherOk ROLES username member then 1 else 0)
                       (members ctx))).
  { apply Forall2_fmap_r, Forall2_flip. eapply Forall2_impl; [exact Hall|].
    intros member b H wx. destruct (H wx) as (w' & -> & Happ & _). exact Happ. }
  assert (Hws : Forall2 (fun p r => forall wx, wire (snd (p wx)) = wire wx ++ r)
                  promises
                  (map (memberStatements ROLES username rs) (members ctx))).
  { apply Forall2_fmap_r, Forall2_flip. eapply Forall2_impl; [exact Hall|].
    intros member b H wx. destruct (H wx) as (w' & -> & _ & Hw). exact Hw. }
  eexists _, _, (driven promises arrival _).
  split; [reflexivity|]. split; [reflexivity|].
  split; [reflexivity|]. split; [reflexivity|].
  split.
  { unfold then_. rewrite (Promise_all_driven promises _ Hvals arrival _ Hperm).
    reflexivity. }
  pose proof (driven_appended roleassoc promises _ Hks arrival
                {| eventLog := eventLog w0; stamps := stamps w0;
                   sentryLog := sentryLog w0;
                   wire := wire w0
                           ++ map (requestOf ROLES [("username", username)])
                                  (members ctx) |}) as Happ.
  set (ks := map (fun member => if gatherOk ROLES username member then 1 else 0)
                 (members ctx)) in *.
  assert (Hsum : sum_list_with (fun i => default 0 (ks !! i)) arrival
                 = length (List.filter (gatherOk ROLES username) (members ctx))).
  { rewrite Hperm, Hlen.
    replace (length (members ctx)) with (length ks) by apply length_map.
    rewrite sum_list_with_lookup. apply sum_list_indicator. }
  rewrite Hsum in Happ. split; [exact Happ|].
  rewrite (driven_grows wire promises _ Hws). f_equal. f_equal.
  apply map_ext. intros i. rewrite list_lookup_fmap.
  destruct (members ctx !! i); reflexivity.
Qed.

End Reconciler.

(** X13: with an array of roles and a user object with a truthy [username],
    [associateUserToRoles] first sends the gather statement to every member
    in the order of the member collection.  Its promise fulfils, and the
    entry of each member is decided by the gather step alone: a failure
    carrying the gather error, or a success without payload whatever the
    grants and revokes answered.  Exactly one [roleassoc] event is appended
    per member whose gather step succeeded. *)
Theorem associateUserToRoles_outcome
    (uuid_v4 utc_now : nat -> string) (ROLES : string) (ctx : HalinContext)
    (arrival : list nat) (fields : list (string * jsval)) (username : jsval)
    (rs : list string) (w : world) :
  assoc "username" fields = Some username ->
  truthy username = true ->
  arrival ≡ₚ seq 0 (length (members ctx)) ->
  (forall member n, member ∈ members ctx -> replyOrder member n ≡ₚ seq 0 n) ->
  exists (p : promise AggregatedResult) (w1 w2 : world),
    associateUserToRoles uuid_v4 utc_now ROLES ctx arrival (JObj fields) (JArr rs) w
    = (Normal p, w1)
    /\ wire w1
       = wire w ++ map (requestOf ROLES [("username", username)]) (members ctx)
    /\ eventLog w1 = eventLog w /\ stamps w1 = stamps w
    /\ p w1 = (Resolved (packageClusterOpResults
                           (map (roleEntry ROLES username) (members ctx))), w2)
    /\ appended (fun e => e_type e = JStr "roleassoc"
                          /\ e_payload e
                             = JObj [("username", username); ("roles", JArr rs)])
         (length (List.filter (gatherOk ROLES username) (members ctx))) w1 w2.
Proof.
  intros Hfield Htruthy Hperm Horders.
  destruct (associateUserToRoles_settles uuid_v4 utc_now ROLES username rs ctx arrival
              fields w Hfield Htruthy Hperm Horders)
    as (p & w1 & w2 & Hp & Hwire & Hlog & Hst & Hs & Happ & _).
  exists p, w1, w2.
  split; [exact Hp|]. split; [exact Hwire|]. split; [exact Hlog|].
  split; [exact Hst|]. split; [exact Hs | exact Happ].
Qed.

Lemma associateUserToRoles_outcome_witness :
  exists (p : promise AggregatedResult) (w1 w2 : world) (agg : AggregatedResult),
    associateUserToRoles Example.uuid_v4 Example.utc_now Example.USER_ROLES
      {| members := [Example.memberWithRoles "a:7687" ["old"] ["admin"];
                     Example.memberDown "b:7687"] |}
      [1; 0] Example.alice (JArr ["reader"; "admin"]) constructor
    = (Normal p, w1)
    /\ p w1 = (Resolved agg, w2)
    /\ map success (agg_results agg) = [true; false]
    /\ length (Ring.items (eventLog w2)) = 1.
Proof.
  destruct (associateUserToRoles_outcome Example.uuid_v4 Example.utc_now
              Example.USER_ROLES
              {| members := [Example.memberWithRoles "a:7687" ["old"] ["admin"];
                             Example.memberDown "b:7687"] |}
              [1; 0] [("username", JStr "alice")] (JStr "alice")
              ["reader"; "admin"] constructor)
    as (p & w1 & w2 & Hp & _ & Hlog & _ & Hs & _ & _ & new & Hlen & _ & Hitems).
  - reflexivity.
  - reflexivity.
  - apply (bool_decide_unpack _). vm_compute. reflexivity.
  - intros member n Hin. simpl in Hin.
    repeat (apply elem_of_cons in Hin as [-> | Hin]); try reflexivity.
    inversion Hin.
  - eexists p, w1, w2, _. split; [exact Hp|]. split; [exact Hs|].
    split; [reflexivity|].
    rewrite Hitems; rewrite Hlog; [rewrite length_app, Hlen; reflexivity|].
    vm_compute. lia.
Defined.






(** X16: [gatherRoles] sends exactly one statement, to the member it is
    given, and appends nothing to the event log.  If the member's statement
    fails the promise rejects with the member's error; if every row has a
    [value], it fulfils with the values in the order of the rows, duplicates
    included; and it rejects when a row has none. *)
Theorem gatherRoles_outcome
    (ROLES : string) (username : jsval) (member : Node) (w : world) :
  exists (g : promise (list string)) (w1 : world),
    gatherRoles ROLES username member w = (Normal g, w1)
    /\ wire w1 = wire w ++ [requestOf ROLES [("username", username)] member]
    /\ eventLog w1 = eventLog w /\ stamps w1 = stamps w
    /\ forall w0,
         quiet w0 (snd (g w0))
         /\ match respond member ROLES [("username", username)] with
            | inl e => fst (g w0) = Rejected e
            | inr rows =>
                (Forall (fun r => is_Some (assoc "value" r)) rows ->
                 fst (g w0) = Resolved (map value rows))
                /\ (~ Forall (fun r => is_Some (assoc "value" r)) rows ->
                    exists e, fst (g w0) = Rejected e)
            end.
Proof.
  destruct (gatherRoles_settles ROLES username member w) as (g & Hg & Hsettle).
  eexists g, _. split; [exact Hg|]. repeat (split; [reflexivity|]).
  intros w0. rewrite Hsettle. unfold gathered, unpackResults.
  destruct (respond member ROLES [("username", username)]) as [e | rows].
  - split; [repeat split | reflexivity].
  - assert (Hreq : forallb (fun r => forallb (fun k => bool_decide (is_Some (assoc k r)))
                                              ["value"]) rows = true
                   <-> Forall (fun r => is_Some (assoc "value" r)) rows).
    { rewrite forallb_forall, Forall_forall. split; intros H r Hr.
      - apply list_elem_of_In, H in Hr. simpl in Hr. rewrite andb_true_r in Hr.
        now apply bool_decide_eq_true in Hr.
      - simpl. rewrite andb_true_r. apply bool_decide_eq_true, H.
        now apply list_elem_of_In. }
    destruct (forallb (fun r => forallb (fun k => bool_decide (is_Some (assoc k r)))
                                        ["value"]) rows) eqn:Hall; simpl.
    + split; [repeat split|]. split; [reflexivity|].
      intros Hnot. exfalso. apply Hnot, Hreq. reflexivity.
    + split; [repeat split|]. split; [|eauto].
      intros Hok. apply Hreq in Hok. discriminate.
Qed.

Lemma converged_no_changes (rs names : list string) (member : Node) :
  (forall x, x ∈ names <-> x ∈ rs) ->
  toAdd (roleChangesOf rs names member) = []
  /\ toDelete (roleChangesOf rs names member) = [].
Proof.
  intros Hsame.
  unfold roleChangesOf, determineDifferences, bind, sentry_fine, ret.
  cbn [fst toAdd toDelete].
  repeat rewrite (newSet_NoDup (List.filter _ (newSet _)))
    by (apply NoDup_List_filter, NoDup_newSet).
  split; apply List_filter_nil; intros x Hx; apply negb_false_iff, has_true;
    rewrite elem_of_newSet in *; now apply Hsame.
Qed.

(** X17: computing the differences again on the roles a member has once the
    first differences are applied (the found roles without those to delete,
    plus those to add) asks for no further grant or revoke, and the roles to
    preserve are then exactly the desired ones. *)
Theorem determineDifferences_second_run
    (rs names : list string) (member : Node) (w w' : world) :
  exists d d' : RoleChanges,
    fst (determineDifferences rs names member w) = Normal d
    /\ let after := List.filter (fun x => negb (has (toDelete d) x)) names ++ toAdd d in
       fst (determineDifferences rs after member w') = Normal d'
       /\ toAdd d' = [] /\ toDelete d' = []
       /\ forall x, x ∈ toPreserve d' <-> x ∈ rs.
Proof.
  exists (roleChangesOf rs names member).
  set (d := roleChangesOf rs names member).
  set (after := List.filter (fun x => negb (has (toDelete d) x)) names ++ toAdd d).
  exists (roleChangesOf rs after member).
  split; [reflexivity|]. cbv zeta. fold after. split; [reflexivity|].
  assert (Hafter : forall x, x ∈ after <-> x ∈ rs).
  { intros x. unfold after, d, roleChangesOf, determineDifferences, bind,
      sentry_fine, ret. cbn [fst toAdd toDelete].
    repeat rewrite (newSet_NoDup (List.filter _ (newSet _)))
    by (apply NoDup_List_filter, NoDup_newSet).
    rewrite elem_of_app, !elem_of_List_filter, negb_true_iff,
      <- !not_true_iff_false, !has_true, elem_of_List_filter, negb_true_iff,
      <- not_true_iff_false, has_true, !elem_of_newSet.
    rewrite negb_true_iff, <- not_true_iff_false, has_true, elem_of_newSet.
    destruct (decide (x ∈ names)); destruct (decide (x ∈ rs)); tauto. }
  destruct (converged_no_changes rs after member Hafter) as (Hadd & Hdel).
  split; [exact Hadd|]. split; [exact Hdel|].
  intros x. unfold roleChangesOf, determineDifferences, bind, sentry_fine, ret.
  cbn [fst toPreserve].
  rewrite newSet_NoDup by (apply NoDup_List_filter, NoDup_newSet).
  rewrite elem_of_List_filter, has_true, !elem_of_newSet, Hafter. tauto.
Qed.
